(** * UrbanFlx supply-chain graph: the custom physics engine

    Shallow embedding of [src/src/SupplyChainGraph.js] (the hook
    [usePhysicsEngine] and the pointer handlers and buttons of the
    [SupplyChainGraph] component that mutate its state).

    JavaScript numbers are IEEE-754 binary64 values.  The engine is
    written once over an abstract arithmetic [Number] and is read at two
    instances:
    - [JS]: Rocq's primitive binary64 floats, the semantics the program
      runs with (NaN, infinities, rounding);
    - [Exact]: the real numbers, used for the algebraic content of the
      formulas (magnitudes, directions, bounds).

    Mutable objects become explicit state: a function that mutates the
    [physicsState] ref takes the old state and returns the new one.  A
    [TypeError] thrown on [undefined] (an edge naming a node that does not
    exist, [INITIAL_NODES[i]] past the end) is a flag next to the state the
    interrupted call leaves behind.  Everything that can change the state
    (a tick of the animation loop, the pointer handlers, the two buttons, a
    resize) is an [Event]; [run] fires a list of them. *)

From Stdlib Require Import ZArith List Bool String Lia.
From Stdlib Require Import Floats.
From Stdlib Require Import Reals Lra.
Import ListNotations.

Set Implicit Arguments.

(** ** Arithmetic interface *)

Class Number (T : Type) : Type := {
  fromZ : Z -> T;                 (* integer literal *)
  add : T -> T -> T;
  sub : T -> T -> T;
  mul : T -> T -> T;
  div : T -> T -> T;
  sqrt : T -> T;                  (* Math.sqrt *)
  abs : T -> T;                   (* Math.abs *)
  ltb : T -> T -> bool;           (* a < b ; a > b is [ltb b a] *)
  pow : T -> nat -> T;            (* Math.pow(base, age) *)
  log : T -> T;                   (* Math.log *)
}.

Declare Scope num_scope.
Delimit Scope num_scope with num.
Infix "+" := add : num_scope.
Infix "-" := sub : num_scope.
Infix "*" := mul : num_scope.
Infix "/" := div : num_scope.
Notation "a <? b" := (ltb a b) : num_scope.
Notation "a >? b" := (ltb b a) : num_scope.

(** A decimal literal [n/d]: the double nearest to the rational in [JS]
    (as the JavaScript parser rounds it), the rational itself in [Exact]. *)
Definition dec {T} `{Number T} (n d : Z) : T := div (fromZ n) (fromZ d).

(** *** IEEE-754 binary64 *)

Module JS.

(** An integer literal (the program's are far below [2^53], so exact). *)
Definition ofZ (z : Z) : float :=
  match z with
  | Z0 => PrimFloat.zero
  | Zpos _ => PrimFloat.of_uint63 (Uint63.of_Z z)
  | Zneg p => PrimFloat.opp (PrimFloat.of_uint63 (Uint63.of_Z (Zpos p)))
  end.

(** [Math.pow] and [Math.log] are host functions without a primitive
    counterpart; the instance takes them as arguments. *)
Definition number (mathPow : float -> nat -> float) (mathLog : float -> float)
  : Number float :=
  {| fromZ := ofZ;
     add := PrimFloat.add;
     sub := PrimFloat.sub;
     mul := PrimFloat.mul;
     div := PrimFloat.div;
     sqrt := PrimFloat.sqrt;
     abs := PrimFloat.abs;
     ltb := PrimFloat.ltb;
     pow := mathPow;
     log := mathLog |}.

(** A reference host.  ECMAScript leaves [Math.pow] and [Math.log]
    implementation-approximated; these are one such approximation (repeated
    multiplication; [ln 2] times the exponent plus a series for the
    mantissa scaled into [sqrt(1/2), sqrt 2)), used where a statement needs
    a concrete host.  No proof below depends on their digits. *)
Definition powNat (b : float) (n : nat) : float :=
  Nat.iter n (fun acc => PrimFloat.mul acc b) PrimFloat.one.

Fixpoint atanhSeries (fuel : nat) (k : Z) (zk z2 acc : float) : float :=
  match fuel with
  | O => acc
  | S fuel' =>
      atanhSeries fuel' (k + 2) (PrimFloat.mul zk z2) z2
                  (PrimFloat.add acc (PrimFloat.div zk (ofZ k)))
  end.

Definition logApprox (a : float) : float :=
  if PrimFloat.is_nan a || PrimFloat.ltb a PrimFloat.zero then PrimFloat.nan
  else if PrimFloat.eqb a PrimFloat.zero then PrimFloat.neg_infinity
  else if PrimFloat.eqb a PrimFloat.infinity then PrimFloat.infinity
  else
    let (m, e) := FloatOps.Z.frexp a in
    let (m, e) := if PrimFloat.ltb m 0x1.6a09e667f3bcdp-1%float
                  then (PrimFloat.mul m PrimFloat.two, (e - 1)%Z) else (m, e) in
    let z := PrimFloat.div (PrimFloat.sub m PrimFloat.one)
                           (PrimFloat.add m PrimFloat.one) in
    PrimFloat.add (PrimFloat.mul (ofZ e) 0x1.62e42fefa39efp-1%float)
                  (PrimFloat.mul PrimFloat.two
                     (atanhSeries 20 1 z (PrimFloat.mul z z) PrimFloat.zero)).

Definition reference : Number float := number powNat logApprox.

End JS.

(** *** Exact real arithmetic *)

Module Exact.

Definition Rltb (a b : R) : bool := if Rlt_dec a b then true else false.

Definition number : Number R :=
  {| fromZ := IZR;
     add := Rplus;
     sub := Rminus;
     mul := Rmult;
     div := Rdiv;
     sqrt := R_sqrt.sqrt;
     abs := Rabs;
     ltb := Rltb;
     pow := Rpow_def.pow;
     log := ln |}.

End Exact.

#[global] Existing Instance Exact.number.

(** ** Data model *)

Inductive NodeType := SUPPLIER | WAREHOUSE | RETAILER.

(** An element of the [nodes] argument of the hook ([INITIAL_NODES]). *)
Record InitNode (T : Type) := {
  in_id : nat; in_type : NodeType;
  in_x : T; in_y : T; in_stress : T; in_label : string }.

(** An element of [physicsState.current.nodes]. *)
Record Node (T : Type) := {
  id : nat; type : NodeType;
  x : T; y : T; stress : T; label : string;
  vx : T; vy : T; ax : T; ay : T; mass : T }.

(** Edges address nodes by array index in the engine.  Some literals of
    [INITIAL_EDGES] carry an [id], the others do not. *)
Record Edge := { edge_id : option nat; source : nat; target : nat }.

(** An element of [physicsState.current.shockwaves].  [age] starts at [0]
    in [triggerShockwave] and is only ever incremented by one, so it is a
    natural number (exactly representable as a double). *)
Record Shockwave (T : Type) := {
  sw_x : T; sw_y : T; force : T; age : nat }.

Record Stats (T : Type) := {
  kineticEnergy : T; tension : T; networkEntropy : T }.

(** What [getNodes] hands to the rendering layer for one node. *)
Record NodeView (T : Type) := {
  v_id : nat; v_x : T; v_y : T; v_stress : T; v_type : NodeType;
  v_label : string; v_vx : T; v_vy : T }.

(** What [simulationStep] returns for one node. *)
Record NodeOut (T : Type) := {
  o_id : nat; o_x : T; o_y : T; o_stress : T; o_type : NodeType;
  o_label : string }.

(** The object behind the [physicsState] ref. *)
Record PhysicsState (T : Type) := {
  nodes : list (Node T);
  edges : list Edge;
  shockwaves : list (Shockwave T);
  running : bool }.

(** The hook's state: the ref, the [stats] React state and the viewport
    size it was last rendered with. *)
Record Engine (T : Type) := {
  physics : PhysicsState T;
  stats : Stats T;
  width : T;
  height : T }.

(** The component's own React state next to the engine. *)
Record Component (T : Type) := {
  engine : Engine T;
  selectedNode : option (NodeView T);
  draggingNode : option (NodeView T);
  dragOffset : T * T }.

(** Field assignments [node.f = v]. *)
Section Setters.
Context {T : Type}.

Definition set_pos (n : Node T) (x' y' : T) : Node T :=
  {| id := id n; type := type n; x := x'; y := y'; stress := stress n;
     label := label n; vx := vx n; vy := vy n; ax := ax n; ay := ay n;
     mass := mass n |}.

Definition set_vel (n : Node T) (vx' vy' : T) : Node T :=
  {| id := id n; type := type n; x := x n; y := y n; stress := stress n;
     label := label n; vx := vx'; vy := vy'; ax := ax n; ay := ay n;
     mass := mass n |}.

Definition set_acc (n : Node T) (ax' ay' : T) : Node T :=
  {| id := id n; type := type n; x := x n; y := y n; stress := stress n;
     label := label n; vx := vx n; vy := vy n; ax := ax'; ay := ay';
     mass := mass n |}.

Definition set_stress_mass (n : Node T) (s m : T) : Node T :=
  {| id := id n; type := type n; x := x n; y := y n; stress := s;
     label := label n; vx := vx n; vy := vy n; ax := ax n; ay := ay n;
     mass := m |}.

Definition set_nodes (p : PhysicsState T) (ns : list (Node T)) : PhysicsState T :=
  {| nodes := ns; edges := edges p; shockwaves := shockwaves p;
     running := running p |}.

Definition set_shockwaves (p : PhysicsState T) (sws : list (Shockwave T))
  : PhysicsState T :=
  {| nodes := nodes p; edges := edges p; shockwaves := sws;
     running := running p |}.

Definition set_physics (e : Engine T) (p : PhysicsState T) : Engine T :=
  {| physics := p; stats := stats e; width := width e; height := height e |}.

Definition set_stats (e : Engine T) (s : Stats T) : Engine T :=
  {| physics := physics e; stats := s; width := width e; height := height e |}.

Definition set_engine (c : Component T) (e : Engine T) : Component T :=
  {| engine := e; selectedNode := selectedNode c;
     draggingNode := draggingNode c; dragOffset := dragOffset c |}.

(** [arr[i] = f(arr[i])] for an index known to be in range; out of range
    the list is returned as it is (callers test the index first). *)
Fixpoint update (i : nat) (f : Node T -> Node T) (l : list (Node T))
  {struct l} : list (Node T) :=
  match l, i with
  | [], _ => []
  | a :: l', O => f a :: l'
  | a :: l', S i' => a :: update i' f l'
  end.

End Setters.

(** ** The physics engine ([usePhysicsEngine]) *)

Section PhysicsEngine.
Context {T : Type} {num : Number T}.
Local Open Scope num_scope.

Definition COULOMB_CONSTANT : T := fromZ 5000.
Definition HOOKE_CONSTANT : T := dec 5 100.
Definition SPRING_LENGTH : T := fromZ 120.
Definition DAMPING : T := dec 92 100.
Definition MAX_VELOCITY : T := fromZ 15.
Definition TIME_STEP : T := dec 16 1000.
Definition SHOCKWAVE_DECAY : T := dec 95 100.
Definition STRESS_THRESHOLD : T := dec 7 10.

Definition zero : T := fromZ 0.
Definition one : T := fromZ 1.

(** The initial value of the [physicsState] ref. *)
Definition initNode (n : InitNode T) : Node T :=
  {| id := in_id n; type := in_type n; x := in_x n; y := in_y n;
     stress := in_stress n; label := in_label n;
     vx := zero; vy := zero; ax := zero; ay := zero;
     mass := one + in_stress n * dec 5 10 |}.

Definition initPhysics (ns : list (InitNode T)) (es : list Edge) : PhysicsState T :=
  {| nodes := map initNode ns; edges := es; shockwaves := []; running := true |}.

Definition usePhysicsEngine (ns : list (InitNode T)) (es : list Edge) (w h : T)
  : Engine T :=
  {| physics := initPhysics ns es;
     stats := {| kineticEnergy := zero; tension := zero; networkEntropy := zero |};
     width := w; height := h |}.

Definition distance (n1 n2 : Node T) : T :=
  let dx := x n2 - x n1 in
  let dy := y n2 - y n1 in
  sqrt (dx * dx + dy * dy).

(** *** Coulomb repulsion *)

(** The body of the loop of [calculateCoulombRepulsion] for one [other]:
    the pair of values added to [fx] and [fy]. *)
Definition coulombTerm (node other : Node T) : T * T :=
  let dx := x node - x other in
  let dy := y node - y other in
  let dist := sqrt (dx * dx + dy * dy) + one in
  let stressFactor := one + stress node * STRESS_THRESHOLD in
  let force := (COULOMB_CONSTANT * stressFactor) / (dist * dist) in
  ((dx / dist) * force, (dy / dist) * force).

(** The [for] loop from index [i] on.  [node] is [allNodes[nodeIndex]],
    [None] when that is [undefined]: reading [node.x] then throws. *)
Fixpoint coulombLoop (node : option (Node T)) (nodeIndex i : nat)
    (rest : list (Node T)) (fx fy : T) : option (T * T) :=
  match rest with
  | [] => Some (fx, fy)
  | other :: rest' =>
      if Nat.eqb i nodeIndex then coulombLoop node nodeIndex (S i) rest' fx fy
      else match node with
           | None => None
           | Some nd =>
               let t := coulombTerm nd other in
               coulombLoop node nodeIndex (S i) rest' (fx + fst t) (fy + snd t)
           end
  end.

Definition calculateCoulombRepulsion (nodeIndex : nat) (allNodes : list (Node T))
  : option (T * T) :=
  coulombLoop (nth_error allNodes nodeIndex) nodeIndex 0 allNodes zero zero.

(** *** Hooke attraction *)

Definition calculateHookeAttraction (edge : Edge) (allNodes : list (Node T))
  : option (T * T * T) :=
  match nth_error allNodes (source edge), nth_error allNodes (target edge) with
  | Some src, Some tgt =>
      let dx := x tgt - x src in
      let dy := y tgt - y src in
      let dist := sqrt (dx * dx + dy * dy) in
      let displacement := dist - SPRING_LENGTH in
      let force := HOOKE_CONSTANT * displacement in
      let fx := (dx / dist) * force in
      let fy := (dy / dist) * force in
      Some (fx, fy, abs displacement)
  | _, _ => None
  end.

(** *** Boundary forces *)

Definition calculateBoundaryForces (w h : T) (node : Node T) : T * T :=
  let margin := fromZ 50 in
  let boundaryK := dec 1 10 in
  let fx := zero in
  let fy := zero in
  let fx := if x node <? margin then fx + (margin - x node) * boundaryK else fx in
  let fx := if x node >? w - margin
            then fx + (w - margin - x node) * boundaryK else fx in
  let fy := if y node <? margin then fy + (margin - y node) * boundaryK else fy in
  let fy := if y node >? h - margin
            then fy + (h - margin - y node) * boundaryK else fy in
  (fx, fy).

(** *** Shockwave forces *)

Definition shockwaveTerm (node : Node T) (sw : Shockwave T) : T * T :=
  let dx := x node - sw_x sw in
  let dy := y node - sw_y sw in
  let dist := sqrt (dx * dx + dy * dy) + one in
  let impact := force sw / (dist * dist) in
  let decay := pow SHOCKWAVE_DECAY (age sw) in
  ((dx / dist) * impact * decay, (dy / dist) * impact * decay).

Definition applyShockwaves (sws : list (Shockwave T)) (node : Node T) : T * T :=
  fold_left (fun f sw => let t := shockwaveTerm node sw in
                         (fst f + fst t, snd f + snd t))
            sws (zero, zero).

(** *** The phases of [simulationStep] *)

(** [n.ax += fx; n.ay += fy] and [n.ax -= fx; n.ay -= fy]. *)
Definition addAcc (f : T * T) (n : Node T) : Node T :=
  set_acc n (ax n + fst f) (ay n + snd f).
Definition subAcc (f : T * T) (n : Node T) : Node T :=
  set_acc n (ax n - fst f) (ay n - snd f).

Definition resetAcc (n : Node T) : Node T := set_acc n zero zero.

(** [nodes.forEach((_, i) => ...)] of the repulsion phase, [count] indices
    left from [i] on.  The flag is [false] when a [TypeError] was thrown;
    the list is the array as mutated so far. *)
Fixpoint coulombPhase (count i : nat) (ns : list (Node T)) : list (Node T) * bool :=
  match count with
  | O => (ns, true)
  | S count' =>
      match calculateCoulombRepulsion i ns with
      | None => (ns, false)
      | Some f => coulombPhase count' (S i) (update i (addAcc f) ns)
      end
  end.

(** [edges.forEach(edge => ...)]: [None] when [nodes[edge.source]] or
    [nodes[edge.target]] is [undefined] ([TypeError]). *)
Fixpoint hookePhase (es : list Edge) (ns : list (Node T)) (totalTension : T)
  : list (Node T) * option T :=
  match es with
  | [] => (ns, Some totalTension)
  | edge :: es' =>
      match calculateHookeAttraction edge ns with
      | None => (ns, None)
      | Some (fx, fy, tens) =>
          let ns1 := update (source edge) (addAcc (fx, fy)) ns in
          let ns2 := update (target edge) (subAcc (fx, fy)) ns1 in
          hookePhase es' ns2 (totalTension + tens)
      end
  end.

Definition boundaryPhase (w h : T) (ns : list (Node T)) : list (Node T) :=
  map (fun n => addAcc (calculateBoundaryForces w h n) n) ns.

Definition shockwavePhase (sws : list (Shockwave T)) (ns : list (Node T))
  : list (Node T) :=
  map (fun n => addAcc (applyShockwaves sws n) n) ns.

(** The body of the integration loop, on one node. *)
Definition integrate (node : Node T) : Node T :=
  (* Acceleration to velocity *)
  let node := set_vel node (vx node + ax node * TIME_STEP)
                           (vy node + ay node * TIME_STEP) in
  (* Apply damping *)
  let node := set_vel node (vx node * DAMPING) (vy node * DAMPING) in
  (* Cap velocity *)
  let speed := sqrt (vx node * vx node + vy node * vy node) in
  let node := if speed >? MAX_VELOCITY
              then set_vel node ((vx node / speed) * MAX_VELOCITY)
                                ((vy node / speed) * MAX_VELOCITY)
              else node in
  (* Update position *)
  set_pos node (x node + vx node * TIME_STEP) (y node + vy node * TIME_STEP).

Definition kineticTerm (node : Node T) : T :=
  dec 5 10 * mass node * (vx node * vx node + vy node * vy node).

Definition integratePhase (ns : list (Node T)) : list (Node T) * T :=
  let ns' := map integrate ns in
  (ns', fold_left (fun ke n => ke + kineticTerm n) ns' zero).

(** [shockwaves.map(sw => ({...sw, age: sw.age + 1}))
      .filter(sw => sw.force > 0.1 && sw.age < 300)] *)
Definition ageShockwave (sw : Shockwave T) : Shockwave T :=
  {| sw_x := sw_x sw; sw_y := sw_y sw; force := force sw; age := age sw + 1 |}.

Definition alive (sw : Shockwave T) : bool :=
  (force sw >? dec 1 10) && Nat.ltb (age sw) 300.

Definition updateShockwaves (sws : list (Shockwave T)) : list (Shockwave T) :=
  filter alive (map ageShockwave sws).

Definition nodeOut (n : Node T) : NodeOut T :=
  {| o_id := id n; o_x := x n; o_y := y n; o_stress := stress n;
     o_type := type n; o_label := label n |}.

(** *** The simulation step

    The result is the engine after the call and what the call returned;
    [None] stands for a thrown [TypeError], the engine then being as the
    interrupted call left it. *)
Definition simulationStep (e : Engine T) : Engine T * option (list (NodeOut T)) :=
  let p := physics e in
  let ns := map resetAcc (nodes p) in
  match coulombPhase (List.length ns) 0 ns with
  | (ns, false) => (set_physics e (set_nodes p ns), None)
  | (ns, true) =>
  match hookePhase (edges p) ns zero with
  | (ns, None) => (set_physics e (set_nodes p ns), None)
  | (ns, Some totalTension) =>
      let ns := boundaryPhase (width e) (height e) ns in
      let ns := shockwavePhase (shockwaves p) ns in
      let (ns, totalKineticEnergy) := integratePhase ns in
      let sws := updateShockwaves (shockwaves p) in
      let avgVelocity := totalKineticEnergy / fromZ (Z.of_nat (List.length ns)) in
      let entropy := log (avgVelocity + dec 1 1000) * fromZ (-1) in
      let p' := set_shockwaves (set_nodes p ns) sws in
      (set_stats (set_physics e p')
         {| kineticEnergy := totalKineticEnergy; tension := totalTension;
            networkEntropy := entropy |},
       Some (map nodeOut ns))
  end
  end.

(** [force] defaults to 1000 in the source; every call here passes it. *)
Definition triggerShockwave (sx sy f : T) (e : Engine T) : Engine T :=
  let p := physics e in
  set_physics e (set_shockwaves p
    (shockwaves p ++ [{| sw_x := sx; sw_y := sy; force := f; age := 0 |}])).

Definition getNodes (e : Engine T) : list (NodeView T) :=
  map (fun n => {| v_id := id n; v_x := x n; v_y := y n; v_stress := stress n;
                   v_type := type n; v_label := label n;
                   v_vx := vx n; v_vy := vy n |})
      (nodes (physics e)).

Definition getEdges (e : Engine T) : list Edge := edges (physics e).

End PhysicsEngine.

(** ** The component ([SupplyChainGraph]) *)

Section SupplyChainGraph.
Context {T : Type} {num : Number T}.
Local Open Scope num_scope.
Local Open Scope string_scope.

Definition mkInit (i : nat) (ty : NodeType) (px py : Z) (tenths : Z) (l : string)
  : InitNode T :=
  {| in_id := i; in_type := ty; in_x := fromZ px; in_y := fromZ py;
     in_stress := dec tenths 10; in_label := l |}.

Definition INITIAL_NODES : list (InitNode T) :=
  [ mkInit 0 SUPPLIER 400 100 2 "Raw Materials S1";
    mkInit 1 SUPPLIER 600 100 4 "Raw Materials S2";
    mkInit 2 SUPPLIER 500 200 1 "Raw Materials S3";
    mkInit 3 WAREHOUSE 300 350 6 "Central Hub W1";
    mkInit 4 WAREHOUSE 700 350 3 "Central Hub W2";
    mkInit 5 WAREHOUSE 500 450 8 "Distribution D1";
    mkInit 6 RETAILER 150 550 2 "Store R1";
    mkInit 7 RETAILER 350 550 5 "Store R2";
    mkInit 8 RETAILER 500 580 4 "Store R3";
    mkInit 9 RETAILER 650 550 3 "Store R4";
    mkInit 10 RETAILER 800 520 7 "Store R5" ].

Definition mkEdge (s t : nat) : Edge :=
  {| edge_id := None; source := s; target := t |}.
Definition mkEdgeId (i s t : nat) : Edge :=
  {| edge_id := Some i; source := s; target := t |}.

Definition INITIAL_EDGES : list Edge :=
  [ mkEdge 0 3; mkEdge 0 2; mkEdge 1 2; mkEdge 1 4; mkEdge 2 3; mkEdge 2 4;
    mkEdge 2 5; mkEdge 3 5; mkEdge 3 6; mkEdge 3 7; mkEdge 4 5; mkEdge 4 9;
    mkEdge 4 10; mkEdge 5 7; mkEdge 5 8; mkEdge 5 9;
    mkEdgeId 16 6 7; mkEdgeId 17 7 8; mkEdgeId 18 8 9; mkEdgeId 19 9 10 ].

(** The component as first rendered, for a given node and edge list
    (the source passes [INITIAL_NODES] and [INITIAL_EDGES]). *)
Definition mountWith (ns : list (InitNode T)) (es : list Edge) : Component T :=
  {| engine := usePhysicsEngine ns es (fromZ 1000) (fromZ 700);
     selectedNode := None; draggingNode := None;
     dragOffset := (zero, zero) |}.

Definition mount : Component T := mountWith INITIAL_NODES INITIAL_EDGES.

(** [setDimensions] from the resize effect. *)
Definition updateDimensions (clientWidth clientHeight : T) (c : Component T)
  : Component T :=
  let e := engine c in
  set_engine c {| physics := physics e; stats := stats e;
                  width := clientWidth; height := clientHeight |}.

Definition handleNodeMouseDown (clientX clientY : T) (node : NodeView T)
    (c : Component T) : Component T :=
  {| engine := engine c; selectedNode := Some node; draggingNode := Some node;
     dragOffset := (clientX - v_x node, clientY - v_y node) |}.

(** [physicsState.nodes.findIndex(n => n.id === wanted)], from index [i]. *)
Fixpoint findIndex (wanted : nat) (i : nat) (ns : list (Node T)) : option nat :=
  match ns with
  | [] => None
  | n :: ns' => if Nat.eqb (id n) wanted then Some i else findIndex wanted (S i) ns'
  end.

Definition pinNode (newX newY : T) (n : Node T) : Node T :=
  set_vel (set_pos n newX newY) zero zero.

(** [rectLeft], [rectTop]: the container's bounding rectangle. *)
Definition handleMouseMove (clientX clientY rectLeft rectTop : T)
    (c : Component T) : Component T :=
  match draggingNode c with
  | Some dn =>
      let newX := clientX - rectLeft - fst (dragOffset c) in
      let newY := clientY - rectTop - snd (dragOffset c) in
      let e := engine c in
      let p := physics e in
      let e := match findIndex (v_id dn) 0 (nodes p) with
               | Some nodeIndex =>
                   set_physics e (set_nodes p (update nodeIndex (pinNode newX newY) (nodes p)))
               | None => e
               end in
      (* Trigger shockwave on drag *)
      set_engine c (triggerShockwave newX newY (fromZ 500) e)
  | None => c
  end.

Definition handleMouseUp (c : Component T) : Component T :=
  match draggingNode c with
  | Some dn =>
      (* Final shockwave on release *)
      {| engine := triggerShockwave (v_x dn) (v_y dn) (fromZ 2000) (engine c);
         selectedNode := selectedNode c; draggingNode := None;
         dragOffset := dragOffset c |}
  | None => c
  end.

(** [onBackground] is [e.target === e.currentTarget]. *)
Definition handleBackgroundClick (onBackground : bool)
    (clientX clientY rectLeft rectTop : T) (c : Component T) : Component T :=
  if onBackground then
    {| engine := triggerShockwave (clientX - rectLeft) (clientY - rectTop)
                   (fromZ 800) (engine c);
       selectedNode := None; draggingNode := draggingNode c;
       dragOffset := dragOffset c |}
  else c.

(** The "Reset Network" button.  [INITIAL_NODES[i]] is [undefined] past
    the end of the constant: the loop then throws (flag [false]) and the
    shockwaves are not cleared. *)
Fixpoint resetLoop (ns : list (Node T)) (init : list (InitNode T))
  : list (Node T) * bool :=
  match ns, init with
  | [], _ => ([], true)
  | n :: ns', [] => (n :: ns', false)
  | n :: ns', i0 :: init' =>
      let (rest, ok) := resetLoop ns' init' in
      (set_vel (set_pos n (in_x i0) (in_y i0)) zero zero :: rest, ok)
  end.

Definition resetNetwork (c : Component T) : Component T :=
  let e := engine c in
  let p := physics e in
  match resetLoop (nodes p) INITIAL_NODES with
  | (ns, true) => set_engine c (set_physics e (set_shockwaves (set_nodes p ns) []))
  | (ns, false) => set_engine c (set_physics e (set_nodes p ns))
  end.

(** The "Randomize Stress" button; [random k] is the value of the [k]-th
    call of [Math.random()]. *)
Fixpoint randomizeLoop (random : nat -> T) (k : nat) (ns : list (Node T))
  : list (Node T) :=
  match ns with
  | [] => []
  | n :: ns' =>
      let s := random k in
      set_stress_mass n s (one + s * dec 5 10) :: randomizeLoop random (S k) ns'
  end.

Definition randomizeStress (random : nat -> T) (c : Component T) : Component T :=
  let e := engine c in
  let p := physics e in
  set_engine c (set_physics e (set_nodes p (randomizeLoop random 0 (nodes p)))).

(** One animation frame in which the step runs. *)
Definition tick (c : Component T) : Component T :=
  set_engine c (fst (simulationStep (engine c))).

(** Everything that changes the component's state. *)
Inductive Event :=
| Tick
| Resize (clientWidth clientHeight : T)
| NodeMouseDown (clientX clientY : T) (node : NodeView T)
| MouseMove (clientX clientY rectLeft rectTop : T)
| MouseUp
| BackgroundClick (onBackground : bool) (clientX clientY rectLeft rectTop : T)
| ResetNetwork
| RandomizeStress (random : nat -> T).

Definition fire (c : Component T) (ev : Event) : Component T :=
  match ev with
  | Tick => tick c
  | Resize w h => updateDimensions w h c
  | NodeMouseDown cx cy node => handleNodeMouseDown cx cy node c
  | MouseMove cx cy l t => handleMouseMove cx cy l t c
  | MouseUp => handleMouseUp c
  | BackgroundClick b cx cy l t => handleBackgroundClick b cx cy l t c
  | ResetNetwork => resetNetwork c
  | RandomizeStress random => randomizeStress random c
  end.

Definition run (c : Component T) (evs : list Event) : Component T :=
  fold_left fire evs c.

End SupplyChainGraph.

Arguments Event T : clear implicits.

(** * Properties *)

(** ** What the force phases can touch

    The four force phases write [ax] and [ay] and nothing else. *)

Section Frame.
Context {T : Type} {num : Number T}.

Definition accOnly (n n' : Node T) : Prop := n' = set_acc n (ax n') (ay n').

Definition accOnlyL (l l' : list (Node T)) : Prop := Forall2 accOnly l l'.

Lemma accOnly_refl n : accOnly n n.
Proof. destruct n; reflexivity. Qed.

Lemma accOnly_set_acc n a b : accOnly n (set_acc n a b).
Proof. destruct n; reflexivity. Qed.

Lemma accOnly_trans n1 n2 n3 : accOnly n1 n2 -> accOnly n2 n3 -> accOnly n1 n3.
Proof.
  unfold accOnly; intros H12 H23; rewrite H23 at 1; rewrite H12 at 1.
  destruct n1; reflexivity.
Qed.

Lemma accOnly_step n n' (f : Node T -> Node T) :
  (forall m, accOnly m (f m)) -> accOnly n n' -> accOnly n (f n').
Proof. intros Hf H; eapply accOnly_trans; [exact H | apply Hf]. Qed.

Lemma accOnly_addAcc f n : accOnly n (addAcc f n).
Proof. apply accOnly_set_acc. Qed.

Lemma accOnly_subAcc f n : accOnly n (subAcc f n).
Proof. apply accOnly_set_acc. Qed.

Lemma accOnly_resetAcc n : accOnly n (resetAcc n).
Proof. apply accOnly_set_acc. Qed.

Lemma accOnlyL_refl l : accOnlyL l l.
Proof. induction l; constructor; auto using accOnly_refl. Qed.

Lemma accOnlyL_length l l' : accOnlyL l l' -> List.length l' = List.length l.
Proof. induction 1; simpl; congruence. Qed.

Lemma accOnlyL_update l l' i f :
  (forall m, accOnly m (f m)) -> accOnlyL l l' -> accOnlyL l (update i f l').
Proof.
  intros Hf H; revert i; induction H; intros i; simpl.
  - constructor.
  - destruct i; constructor; auto using accOnly_step.
    apply IHForall2.
Qed.

Lemma accOnlyL_map l l' f :
  (forall m, accOnly m (f m)) -> accOnlyL l l' -> accOnlyL l (map f l').
Proof.
  intros Hf H; induction H; simpl; constructor; auto using accOnly_step.
Qed.

Lemma update_length i f (l : list (Node T)) :
  List.length (update i f l) = List.length l.
Proof. revert i; induction l; intros [|i]; simpl; auto. Qed.

Lemma coulombPhase_acc count : forall i l ns,
  accOnlyL l ns -> accOnlyL l (fst (coulombPhase count i ns)).
Proof.
  induction count; intros i l ns H; simpl; auto.
  destruct (calculateCoulombRepulsion i ns); simpl; auto.
  apply IHcount, accOnlyL_update; auto using accOnly_addAcc.
Qed.

Lemma hookePhase_acc es : forall l ns tt,
  accOnlyL l ns -> accOnlyL l (fst (hookePhase es ns tt)).
Proof.
  induction es as [|edge es IH]; intros l ns tt H; simpl; auto.
  destruct (calculateHookeAttraction edge ns) as [[[fx fy] tens]|]; simpl; auto.
  apply IH; repeat apply accOnlyL_update;
    auto using accOnly_addAcc, accOnly_subAcc.
Qed.

Lemma boundaryPhase_acc w h l ns :
  accOnlyL l ns -> accOnlyL l (boundaryPhase w h ns).
Proof.
  intros H; unfold boundaryPhase.
  apply accOnlyL_map with (f := fun n => addAcc (calculateBoundaryForces w h n) n);
    auto using accOnly_addAcc.
Qed.

Lemma shockwavePhase_acc sws l ns :
  accOnlyL l ns -> accOnlyL l (shockwavePhase sws ns).
Proof.
  intros H; unfold shockwavePhase.
  apply accOnlyL_map with (f := fun n => addAcc (applyShockwaves sws n) n);
    auto using accOnly_addAcc.
Qed.

(** *** The step, phase by phase

    A step that throws leaves everything but accelerations as it was; a
    step that returns has integrated every node from its accumulated
    acceleration, aged and pruned the shockwaves and published fresh
    statistics. *)
Lemma simulationStep_spec (e : Engine T) :
  let p := physics e in
  match simulationStep e with
  | (e', None) =>
      exists ns, accOnlyL (nodes p) ns /\ e' = set_physics e (set_nodes p ns)
  | (e', Some out) =>
      exists pre st,
        accOnlyL (nodes p) pre /\
        e' = set_stats
               (set_physics e
                  (set_shockwaves (set_nodes p (map integrate pre))
                     (updateShockwaves (shockwaves p)))) st /\
        out = map nodeOut (map integrate pre)
  end.
Proof.
  intros p; unfold simulationStep; fold p.
  pose proof (@coulombPhase_acc (List.length (map resetAcc (nodes p))) 0
                (nodes p) (map resetAcc (nodes p))) as Hc.
  destruct (coulombPhase _ 0 (map resetAcc (nodes p))) as [ns1 ok].
  simpl in Hc.
  assert (H1 : accOnlyL (nodes p) ns1).
  { apply Hc. apply accOnlyL_map; auto using accOnly_resetAcc, accOnlyL_refl. }
  clear Hc. destruct ok.
  2:{ exists ns1; auto. }
  pose proof (@hookePhase_acc (edges p) (nodes p) ns1 zero H1) as Hh.
  destruct (hookePhase (edges p) ns1 zero) as [ns2 [tens|]]; simpl in Hh.
  2:{ exists ns2; auto. }
  unfold integratePhase.
  eexists; eexists; split; [|split; reflexivity].
  apply shockwavePhase_acc, boundaryPhase_acc, Hh.
Qed.

End Frame.

(** ** The step returns when the edges are in range *)

Section Totality.
Context {T : Type} {num : Number T}.

Definition edgeInRange (len : nat) (edge : Edge) : Prop :=
  source edge < len /\ target edge < len.

Definition edgesInRange (p : PhysicsState T) : Prop :=
  Forall (edgeInRange (List.length (nodes p))) (edges p).

Lemma coulombLoop_some rest : forall nd idx i fx fy,
  exists f, coulombLoop (Some nd) idx i rest fx fy = Some f.
Proof.
  induction rest as [|other rest IH]; intros; simpl; eauto.
  destruct (Nat.eqb i idx); apply IH.
Qed.

Lemma calculateCoulombRepulsion_some i (ns : list (Node T)) :
  i < List.length ns -> exists f, calculateCoulombRepulsion i ns = Some f.
Proof.
  intros Hi; unfold calculateCoulombRepulsion.
  destruct (nth_error ns i) eqn:E.
  - apply coulombLoop_some.
  - apply nth_error_None in E; lia.
Qed.

Lemma coulombPhase_ok count : forall i (ns : list (Node T)),
  i + count = List.length ns -> snd (coulombPhase count i ns) = true.
Proof.
  induction count as [|count IH]; intros i ns Hlen; simpl; auto.
  destruct (@calculateCoulombRepulsion_some i ns ltac:(lia)) as [f ->].
  apply IH; rewrite update_length; lia.
Qed.

Lemma calculateHookeAttraction_some edge (ns : list (Node T)) :
  edgeInRange (List.length ns) edge ->
  exists r, calculateHookeAttraction edge ns = Some r.
Proof.
  intros [Hs Ht]; unfold calculateHookeAttraction.
  destruct (nth_error ns (source edge)) eqn:Es.
  2:{ apply nth_error_None in Es; lia. }
  destruct (nth_error ns (target edge)) eqn:Et.
  2:{ apply nth_error_None in Et; lia. }
  eauto.
Qed.

Lemma hookePhase_ok es : forall (ns : list (Node T)) tt,
  Forall (edgeInRange (List.length ns)) es ->
  exists t, snd (hookePhase es ns tt) = Some t.
Proof.
  induction es as [|edge es IH]; intros ns tt H; simpl; eauto.
  inversion H as [|? ? He Hes]; subst.
  destruct (@calculateHookeAttraction_some edge ns He) as [[[fx fy] tens] ->].
  apply IH; rewrite !update_length; exact Hes.
Qed.

Lemma simulationStep_returns (e : Engine T) :
  edgesInRange (physics e) -> exists out, snd (simulationStep e) = Some out.
Proof.
  unfold edgesInRange, simulationStep; intros H.
  set (p := physics e) in *.
  pose proof (@coulombPhase_ok _ 0 (map resetAcc (nodes p)) eq_refl) as Hok.
  pose proof (@coulombPhase_acc _ _ (List.length (map resetAcc (nodes p))) 0
                (map resetAcc (nodes p)) _ (accOnlyL_refl _)) as Hacc.
  destruct (coulombPhase _ 0 (map resetAcc (nodes p))) as [ns1 ok].
  simpl in Hok, Hacc; subst ok.
  apply accOnlyL_length in Hacc; rewrite length_map in Hacc.
  destruct (@hookePhase_ok (edges p) ns1 zero) as [t Ht].
  { rewrite Hacc; exact H. }
  destruct (hookePhase (edges p) ns1 zero) as [ns2 r]; simpl in Ht; subst r.
  unfold integratePhase; simpl; eauto.
Qed.

End Totality.

(** ** C10: the frame of a step *)

Section StepFrame.
Context {T : Type} {num : Number T}.

(** The part of a node the simulation never writes. *)
Definition staticPart (n : Node T) : nat * NodeType * T * T * string :=
  (id n, type n, stress n, mass n, label n).

Lemma accOnly_static n n' : accOnly n n' -> staticPart n' = staticPart n.
Proof. intros ->; reflexivity. Qed.

Lemma accOnlyL_static l l' :
  accOnlyL l l' -> map staticPart l' = map staticPart l.
Proof.
  induction 1; simpl; f_equal; auto using accOnly_static.
Qed.

Lemma integrate_static n : staticPart (integrate n) = staticPart n.
Proof.
  unfold integrate; simpl.
  match goal with |- context [if ?b then _ else _] => destruct b end; reflexivity.
Qed.

Lemma integrate_map_static l :
  map staticPart (map integrate l) = map staticPart l.
Proof.
  rewrite map_map; apply map_ext; intros; apply integrate_static.
Qed.

Lemma step_static (e : Engine T) :
  map staticPart (nodes (physics (fst (simulationStep e))))
  = map staticPart (nodes (physics e)).
Proof.
  pose proof (simulationStep_spec e) as H.
  destruct (simulationStep e) as [e' [out|]]; simpl in *.
  - destruct H as (pre & st & Hacc & -> & _); simpl.
    rewrite integrate_map_static; apply accOnlyL_static, Hacc.
  - destruct H as (ns & Hacc & ->); simpl.
    apply accOnlyL_static, Hacc.
Qed.

(** One shockwave is the other but for its age. *)
Definition sameWave (sw sw' : Shockwave T) : Prop :=
  sw_x sw' = sw_x sw /\ sw_y sw' = sw_y sw /\ force sw' = force sw.

Lemma step_shockwaves (e : Engine T) :
  shockwaves (physics (fst (simulationStep e))) = shockwaves (physics e) \/
  shockwaves (physics (fst (simulationStep e)))
  = updateShockwaves (shockwaves (physics e)).
Proof.
  pose proof (simulationStep_spec e) as H.
  destruct (simulationStep e) as [e' [out|]]; simpl in *.
  - destruct H as (pre & st & _ & -> & _); simpl; auto.
  - destruct H as (ns & _ & ->); simpl; auto.
Qed.

Lemma step_rest (e : Engine T) :
  let e' := fst (simulationStep e) in
  edges (physics e') = edges (physics e) /\
  running (physics e') = running (physics e) /\
  width e' = width e /\ height e' = height e.
Proof.
  pose proof (simulationStep_spec e) as H.
  destruct (simulationStep e) as [e' [out|]]; simpl in *.
  - destruct H as (pre & st & _ & -> & _); simpl; auto.
  - destruct H as (ns & _ & ->); simpl; auto.
Qed.

End StepFrame.

(** C10. A simulation step leaves the [id], [type], [stress], [mass] and
    [label] of every node (and the number and order of the nodes) and the
    edge list unchanged; the viewport size and the [running] flag are kept
    too.  Every shockwave present after the step is one that was there
    before, with the same origin and force, its age advanced by at most
    one.  (Positions, velocities, accelerations and statistics are what the
    step may write.)  This holds for any arithmetic, also when the step
    throws. *)
Theorem simulationStep_frame :
  forall (T : Type) (num : Number T) (e : Engine T),
    let p := physics e in
    let p' := physics (fst (simulationStep e)) in
    map staticPart (nodes p') = map staticPart (nodes p) /\
    edges p' = edges p /\
    running p' = running p /\
    width (fst (simulationStep e)) = width e /\
    height (fst (simulationStep e)) = height e /\
    (forall sw', In sw' (shockwaves p') ->
       exists sw, In sw (shockwaves p) /\ sameWave sw sw' /\
                  (age sw' = age sw \/ age sw' = age sw + 1)).
Proof.
  intros T num e p p'.
  destruct (step_rest e) as (He & Hr & Hw & Hh).
  split; [apply step_static|].
  do 4 (split; [assumption|]).
  intros sw' Hin; subst p p'.
  destruct (step_shockwaves e) as [E|E]; rewrite E in Hin.
  - exists sw'; unfold sameWave; auto.
  - unfold updateShockwaves in Hin.
    apply filter_In in Hin; destruct Hin as [Hin _].
    apply in_map_iff in Hin; destruct Hin as (sw & <- & Hin).
    exists sw; unfold sameWave; simpl; auto.
Qed.

(** ** What the events do to the node list *)

Section EventFrame.
Context {T : Type} {num : Number T}.

Definition nodesOf (c : Component T) : list (Node T) := nodes (physics (engine c)).
Definition shockwavesOf (c : Component T) : list (Shockwave T) :=
  shockwaves (physics (engine c)).

Lemma update_static i f (l : list (Node T)) :
  (forall n, staticPart (f n) = staticPart n) ->
  map staticPart (update i f l) = map staticPart l.
Proof.
  intros Hf; revert i; induction l as [|a l IH]; intros [|i]; simpl;
    rewrite ?Hf, ?IH; reflexivity.
Qed.

Lemma resetLoop_static (ns : list (Node T)) : forall init,
  map staticPart (fst (resetLoop ns init)) = map staticPart ns.
Proof.
  induction ns as [|n ns IH]; intros [|i0 init]; simpl; auto.
  specialize (IH init); destruct (resetLoop ns init) as [rest ok]; simpl in *.
  rewrite IH; reflexivity.
Qed.

Definition isRandomize (ev : Event T) : bool :=
  match ev with RandomizeStress _ => true | _ => false end.

(** Only the "Randomize Stress" button writes [stress] and [mass]. *)
Lemma fire_static (c : Component T) (ev : Event T) :
  isRandomize ev = false ->
  map staticPart (nodesOf (fire c ev)) = map staticPart (nodesOf c).
Proof.
  unfold nodesOf; destruct ev; simpl; intros Hev; try discriminate; auto.
  - apply step_static.
  - unfold handleMouseMove.
    destruct (draggingNode c) as [dn|]; simpl; auto.
    destruct (findIndex (v_id dn) 0 (nodes (physics (engine c)))); simpl; auto.
    apply update_static; reflexivity.
  - unfold handleMouseUp; destruct (draggingNode c); reflexivity.
  - unfold handleBackgroundClick; destruct onBackground; reflexivity.
  - unfold resetNetwork.
    pose proof (resetLoop_static (nodes (physics (engine c))) INITIAL_NODES) as H.
    destruct (resetLoop (nodes (physics (engine c))) INITIAL_NODES) as [ns [|]];
      simpl in *; exact H.
Qed.

Lemma randomizeLoop_length random : forall k (ns : list (Node T)),
  List.length (randomizeLoop random k ns) = List.length ns.
Proof. intros k ns; revert k; induction ns; intros k; simpl; auto. Qed.

Lemma fire_length (c : Component T) (ev : Event T) :
  List.length (nodesOf (fire c ev)) = List.length (nodesOf c).
Proof.
  destruct (isRandomize ev) eqn:E.
  - destruct ev; try discriminate; unfold nodesOf; simpl.
    apply randomizeLoop_length.
  - rewrite <- (length_map staticPart), fire_static, length_map; auto.
Qed.

Lemma run_cons (c : Component T) ev evs : run c (ev :: evs) = run (fire c ev) evs.
Proof. reflexivity. Qed.

Lemma run_length (evs : list (Event T)) : forall c : Component T,
  List.length (nodesOf (run c evs)) = List.length (nodesOf c).
Proof.
  induction evs as [|ev evs IH]; intros c; [reflexivity|].
  rewrite run_cons, IH; apply fire_length.
Qed.

(** *** Invariants of the pair ([stress], [mass]) *)

Variable P : T -> T -> Prop.

Definition holdsOn (n : Node T) : Prop := P (stress n) (mass n).

(** Every value [Math.random()] returns yields a good pair. *)
Definition goodDraws (ev : Event T) : Prop :=
  match ev with
  | RandomizeStress random =>
      forall k, P (random k) (add one (mul (random k) (dec 5 10)))
  | _ => True
  end.

Lemma holdsOn_static (l l' : list (Node T)) :
  map staticPart l' = map staticPart l -> Forall holdsOn l -> Forall holdsOn l'.
Proof.
  revert l'; induction l as [|a l IH]; intros [|a' l'] E H; simpl in *;
    try discriminate; constructor; inversion H; subst; inversion E.
  - unfold holdsOn in *; congruence.
  - apply IH; auto.
Qed.

Lemma randomizeLoop_holds random :
  (forall k, P (random k) (add one (mul (random k) (dec 5 10)))) ->
  forall (ns : list (Node T)) k, Forall holdsOn (randomizeLoop random k ns).
Proof.
  intros Hr ns; induction ns; intros k; simpl; constructor; auto.
  apply Hr.
Qed.

Lemma fire_holds (c : Component T) (ev : Event T) :
  goodDraws ev -> Forall holdsOn (nodesOf c) -> Forall holdsOn (nodesOf (fire c ev)).
Proof.
  intros Hev H; destruct (isRandomize ev) eqn:E.
  - destruct ev; try discriminate; unfold nodesOf; simpl.
    apply randomizeLoop_holds, Hev.
  - eapply holdsOn_static; [apply fire_static, E | exact H].
Qed.

Lemma run_holds (evs : list (Event T)) : forall c : Component T,
  Forall goodDraws evs -> Forall holdsOn (nodesOf c) ->
  Forall holdsOn (nodesOf (run c evs)).
Proof.
  induction evs as [|ev evs IH]; intros c Hevs H; [exact H|].
  rewrite run_cons; inversion Hevs; subst; apply IH; auto using fire_holds.
Qed.

Lemma mount_holds (ns : list (InitNode T)) (es : list Edge) :
  Forall (fun n => P (in_stress n) (add one (mul (in_stress n) (dec 5 10)))) ns ->
  Forall holdsOn (nodesOf (mountWith ns es)).
Proof.
  unfold nodesOf; simpl; induction 1; simpl; constructor; auto.
Qed.

(** *** The dragged node's snapshot

    [draggingNode] is the view object the node was pressed with; neither a
    move nor a tick refreshes it, and the release reads its coordinates. *)

Lemma handleMouseMove_keeps_snapshot cx cy l t (c : Component T) :
  draggingNode (handleMouseMove cx cy l t c) = draggingNode c.
Proof.
  unfold handleMouseMove; destruct (draggingNode c) eqn:E; simpl; auto.
Qed.

Lemma tick_keeps_snapshot (c : Component T) :
  draggingNode (tick c) = draggingNode c.
Proof. reflexivity. Qed.

Lemma handleMouseUp_appends (c : Component T) (dn : NodeView T) :
  draggingNode c = Some dn ->
  shockwavesOf (handleMouseUp c)
  = shockwavesOf c
    ++ [ {| sw_x := v_x dn; sw_y := v_y dn; force := fromZ 2000; age := 0 |} ] /\
  nodesOf (handleMouseUp c) = nodesOf c /\
  draggingNode (handleMouseUp c) = None.
Proof.
  intros H; unfold handleMouseUp, shockwavesOf, nodesOf; rewrite H; auto.
Qed.

End EventFrame.

(** ** C6: mass is derived from stress *)

Definition massOk {T : Type} {num : Number T} (n : Node T) : Prop :=
  mass n = add one (mul (stress n) (dec 5 10)).

Definition drawsInUnit (ev : Event R) : Prop :=
  match ev with
  | RandomizeStress random => forall k, (0 <= random k <= 1)%R
  | _ => True
  end.

Lemma goodDraws_massOk {T : Type} {num : Number T} (evs : list (Event T)) :
  Forall (goodDraws (fun s m => m = add one (mul s (dec 5 10)))) evs.
Proof.
  induction evs as [|ev evs IH]; constructor; auto.
  destruct ev; simpl; auto.
Qed.

(** Unfolds the arithmetic of the exact instance down to the reals. *)
Ltac exact_arith :=
  unfold massOk, holdsOn, one, zero, dec in *;
  cbn [add sub mul div fromZ Exact.number] in *.

(** C6. In every state the component can reach from its construction (any
    sequence of ticks, pointer events, resets, resizes and stress
    randomizations, for any constructor arguments and any arithmetic)
    every node has [mass = 1 + stress * 0.5].  Over the reals, when the
    constructor's stresses and every value drawn by [Math.random()] lie in
    [0,1], every node's mass is therefore at least 1. *)
Theorem mass_derived_from_stress :
  (forall (T : Type) (num : Number T) (ns : list (InitNode T)) (es : list Edge)
          (evs : list (Event T)),
      Forall massOk (nodesOf (run (mountWith ns es) evs)))
  /\
  (forall (ns : list (InitNode R)) (es : list Edge) (evs : list (Event R)),
      Forall (fun n => (0 <= in_stress n <= 1)%R) ns ->
      Forall drawsInUnit evs ->
      Forall (fun n => (1 <= mass n)%R)
             (nodesOf (run (@mountWith R Exact.number ns es) evs))).
Proof.
  split.
  - intros T num ns es evs.
    apply (@run_holds T num (fun s m => m = add one (mul s (dec 5 10)))).
    + apply goodDraws_massOk.
    + apply mount_holds; induction ns; constructor; auto.
  - intros ns es evs Hns Hevs.
    pose (P := fun s m : R => (0 <= s <= 1)%R /\ m = (1 + s * (5 / 10))%R).
    assert (H : Forall (holdsOn P)
                  (nodesOf (run (@mountWith R Exact.number ns es) evs))).
    { apply (@run_holds R Exact.number P).
      - clear Hns; induction Hevs as [|ev evs Hev _ IH]; constructor; auto.
        destruct ev; simpl in *; auto.
        intros k; subst P; exact_arith; split; [apply Hev | reflexivity].
      - apply mount_holds.
        clear Hevs; induction Hns; constructor; auto.
        subst P; exact_arith; split; [assumption | reflexivity]. }
    eapply Forall_impl; [|exact H].
    intros n [Hs Hm]; rewrite Hm; lra.
Qed.

(** The theorem at the component as shipped, after a tick, a
    randomization to one half and another tick. *)
Lemma mass_derived_from_stress_witness :
  Forall (fun n => (1 <= mass n)%R)
         (nodesOf (run (@mount R Exact.number)
                       [Tick; RandomizeStress (fun _ => (1 / 2)%R); Tick])).
Proof.
  apply (proj2 mass_derived_from_stress).
  - repeat constructor; exact_arith; simpl; lra.
  - repeat constructor; simpl; intros; lra.
Defined.

(** ** C9: the "Reset Network" button *)

Section Reset.
Context {T : Type} {num : Number T}.

Definition kinematics (n : Node T) : T * T * T * T := (x n, y n, vx n, vy n).

Lemma resetLoop_restores (ns : list (Node T)) : forall init,
  List.length ns = List.length init ->
  snd (resetLoop ns init) = true /\
  map kinematics (fst (resetLoop ns init)) = map kinematics (map initNode init).
Proof.
  induction ns as [|n ns IH]; intros [|i0 init] Hlen; simpl in *;
    try discriminate; auto.
  destruct (IH init ltac:(lia)) as [Hok Hk].
  destruct (resetLoop ns init) as [rest ok]; simpl in *.
  split; [assumption | rewrite Hk; reflexivity].
Qed.

Lemma resetNetwork_restores (c : Component T) :
  List.length (nodesOf c) = List.length (@INITIAL_NODES T num) ->
  map kinematics (nodesOf (resetNetwork c)) = map kinematics (nodesOf mount) /\
  shockwavesOf (resetNetwork c) = [].
Proof.
  unfold nodesOf, shockwavesOf, resetNetwork; intros Hlen.
  destruct (resetLoop_restores _ _ Hlen) as [Hok Hk].
  destruct (resetLoop (nodes (physics (engine c))) INITIAL_NODES) as [ns ok].
  simpl in Hok, Hk; subst ok; simpl; auto.
Qed.

End Reset.

(** C9. Whatever happened since the component was mounted (ticks, drags,
    clicks, resizes, randomizations, earlier resets), after "Reset
    Network" every node has exactly the position and the velocity it was
    constructed with, and no shockwave is active. *)
Theorem reset_restores_construction :
  forall (T : Type) (num : Number T) (evs : list (Event T)),
    let c := resetNetwork (run mount evs) in
    map kinematics (nodesOf c) = map kinematics (nodesOf mount) /\
    shockwavesOf c = [].
Proof.
  intros T num evs c; subst c.
  apply resetNetwork_restores.
  rewrite run_length; reflexivity.
Qed.

(** ** C7: the integrator *)

Section Integrator.
Context {T : Type} {num : Number T}.
Local Open Scope num_scope.

(** The four steps as the specification words them. *)

(** 1. [velocity += acceleration * dt] *)
Definition accelerate (n : Node T) : Node T :=
  set_vel n (vx n + ax n * TIME_STEP) (vy n + ay n * TIME_STEP).

(** 2. [velocity *= dampingFactor] *)
Definition dampVelocity (n : Node T) : Node T :=
  set_vel n (vx n * DAMPING) (vy n * DAMPING).

Definition speedOf (n : Node T) : T := sqrt (vx n * vx n + vy n * vy n).

(** 3. if [|velocity| > maxVelocity], rescale to the cap *)
Definition clampVelocity (n : Node T) : Node T :=
  if speedOf n >? MAX_VELOCITY
  then set_vel n (vx n / speedOf n * MAX_VELOCITY) (vy n / speedOf n * MAX_VELOCITY)
  else n.

(** 4. [position += velocity * dt] *)
Definition advance (n : Node T) : Node T :=
  set_pos n (x n + vx n * TIME_STEP) (y n + vy n * TIME_STEP).

Definition integrateSpec (n : Node T) : Node T :=
  advance (clampVelocity (dampVelocity (accelerate n))).

Lemma integrate_is_spec (n : Node T) : integrate n = integrateSpec n.
Proof.
  unfold integrate, integrateSpec, advance, clampVelocity, speedOf; simpl.
  destruct (_ >? _); reflexivity.
Qed.


End Integrator.

Section Clamp.
Local Open Scope R_scope.

Lemma Rltb_true a b : a < b -> Exact.Rltb a b = true.
Proof. unfold Exact.Rltb; intros; destruct (Rlt_dec a b); auto; contradiction. Qed.

Lemma Rltb_false a b : b <= a -> Exact.Rltb a b = false.
Proof. unfold Exact.Rltb; intros; destruct (Rlt_dec a b); auto; lra. Qed.

(** A vector longer than [c], scaled by [c] over its length, has length [c]. *)
Lemma rescaled_length (u v c s : R) :
  0 <= c -> 0 < s -> s * s = u * u + v * v ->
  R_sqrt.sqrt (u / s * c * (u / s * c) + v / s * c * (v / s * c)) = c.
Proof.
  intros Hc Hs Hq.
  assert (E : u / s * c * (u / s * c) + v / s * c * (v / s * c) = c * c).
  { transitivity (c * c * (u * u + v * v) / (s * s)).
    - field; lra.
    - rewrite <- Hq; field; lra. }
  rewrite E; apply sqrt_square, Hc.
Qed.

Lemma clampVelocity_exact (n : Node R) :
  let n' := clampVelocity n in
  (MAX_VELOCITY < speedOf n ->
     speedOf n' = MAX_VELOCITY /\
     exists k, 0 < k /\ vx n' = k * vx n /\ vy n' = k * vy n) /\
  (speedOf n <= MAX_VELOCITY -> n' = n).
Proof.
  unfold clampVelocity, speedOf, MAX_VELOCITY;
    cbn [add sub mul div fromZ sqrt ltb Exact.number].
  split; intros H.
  - rewrite Rltb_true by exact H; simpl; split.
    + apply rescaled_length; try lra.
      apply sqrt_sqrt; nra.
    + exists (15 / R_sqrt.sqrt (vx n * vx n + vy n * vy n)).
      split; [apply Rdiv_lt_0_compat; lra |].
      split; field; lra.
  - rewrite Rltb_false by exact H; reflexivity.
Qed.

End Clamp.

#[local] Set Warnings "-inexact-float".






(** ** The engine on binary64 numbers

    What follows runs the engine as JavaScript does, whatever [Math.pow]
    and [Math.log] compute. *)

Section Binary64.
Variable mathPow : float -> nat -> float.
Variable mathLog : float -> float.

#[local] Instance js : Number float := JS.number mathPow mathLog.

(** Two nodes constructed at the same place, joined by an edge. *)
Definition coincidentNodes : list (InitNode float) :=
  [ mkInit 0 SUPPLIER 100 100 2 "A"; mkInit 1 WAREHOUSE 100 100 4 "B" ].

Definition coincident : Component float :=
  mountWith coincidentNodes [mkEdge 0 1].

(** Whenever both coordinate differences of an edge's ends are zero, the
    spring computation returns NaN forces. *)
Lemma hooke_zero_offset_nan (edge : Edge) (ns : list (Node float)) src tgt :
  nth_error ns (source edge) = Some src ->
  nth_error ns (target edge) = Some tgt ->
  PrimFloat.sub (x tgt) (x src) = 0%float ->
  PrimFloat.sub (y tgt) (y src) = 0%float ->
  calculateHookeAttraction edge ns = Some (nan, nan, 120%float).
Proof.
  intros Hs Ht Hx Hy; unfold calculateHookeAttraction; rewrite Hs, Ht.
  cbn [sub js JS.number]; rewrite Hx, Hy; vm_compute; reflexivity.
Qed.

(** C2. Code evaluated at the failing input: for an edge whose two ends
    are both at (100,100) the spring computation divides [dx] and [dy] by
    the zero distance without a guard and returns [fx = fy = NaN]. *)
Theorem hooke_zero_distance_nan :
  calculateHookeAttraction (mkEdge 0 1) (nodesOf coincident)
  = Some (nan, nan, 120%float).
Proof. vm_compute; reflexivity. Qed.

(** The repulsion and shockwave computations on the same geometry: their
    [+ 1] makes the quotient [0 / 1], not [0 / 0]. *)
Lemma coulomb_zero_distance_finite :
  calculateCoulombRepulsion 0 (nodesOf coincident) = Some (0%float, 0%float).
Proof. vm_compute; reflexivity. Qed.

Lemma shockwave_zero_distance_guarded :
  shockwaveTerm (initNode (mkInit 0 SUPPLIER 100 100 2 "A"))
    {| sw_x := 100%float; sw_y := 100%float; force := 1000%float; age := 0 |}
  = ((0 * mathPow 0.95 0)%float, (0 * mathPow 0.95 0)%float).
Proof. vm_compute; reflexivity. Qed.

Definition velocities (c : Component float) : list (float * float) :=
  map (fun n => (vx n, vy n)) (nodesOf c).

(** [|velocity| <= MAX_VELOCITY] as JavaScript evaluates it. *)
Definition withinCap (n : Node float) : bool :=
  PrimFloat.leb (speedOf n) MAX_VELOCITY.

(** One tick on the two coincident, connected nodes leaves both with
    velocity (NaN, NaN): the clamp's test [speed > MAX_VELOCITY] is false
    for NaN, and so is [|velocity| <= MAX_VELOCITY]. *)
Lemma velocity_cap_broken_by_nan :
  velocities (tick coincident) = [(nan, nan); (nan, nan)] /\
  map withinCap (nodesOf (tick coincident)) = [false; false].
Proof. vm_compute; split; reflexivity. Qed.

(** The pointer sequence: press on node 0 where it is drawn, (400,100);
    move to (500,300); release.  The container's rectangle is at the
    origin. *)
Definition node0View : NodeView float :=
  {| v_id := 0; v_x := 400; v_y := 100; v_stress := 0.2; v_type := SUPPLIER;
     v_label := "Raw Materials S1"; v_vx := 0; v_vy := 0 |}%float.

Definition dragAndRelease : list (Event float) :=
  [ NodeMouseDown 400 100 node0View; MouseMove 500 300 0 0; MouseUp ]%float.

Definition positionOf (i : nat) (c : Component float) : option (float * float) :=
  option_map (fun n => (x n, y n)) (nth_error (nodesOf c) i).

(** C4. Code evaluated at the failing input: the view pressed on is the
    one [getNodes] rendered; after the drag the node is at (500,300), the
    release appends one shockwave, of force 2000, and puts it at (400,100),
    where the node was when it was pressed. *)
Theorem release_shockwave_at_press_position :
  nth_error (getNodes (engine mount)) 0 = Some node0View /\
  positionOf 0 (run mount dragAndRelease) = Some (500, 300)%float /\
  shockwavesOf (run mount dragAndRelease)
  = [ {| sw_x := 500; sw_y := 300; force := 500; age := 0 |};
      {| sw_x := 400; sw_y := 100; force := 2000; age := 0 |} ]%float.
Proof. vm_compute; repeat split; reflexivity. Qed.

End Binary64.

(** ** C5: the repulsion term *)

Section RepulsionSum.
Context {T : Type} {num : Number T}.

(** The elements of [rest] (which starts at index [i]) whose index is not
    [nodeIndex]. *)
Fixpoint others (nodeIndex i : nat) (rest : list (Node T)) : list (Node T) :=
  match rest with
  | [] => []
  | other :: rest' =>
      if Nat.eqb i nodeIndex then others nodeIndex (S i) rest'
      else other :: others nodeIndex (S i) rest'
  end.

Definition addTerm (nd : Node T) (f : T * T) (other : Node T) : T * T :=
  (add (fst f) (fst (coulombTerm nd other)), add (snd f) (snd (coulombTerm nd other))).

(** The loop adds one [coulombTerm] per other node, in array order. *)
Lemma coulombLoop_sum (nd : Node T) (nodeIndex : nat) (rest : list (Node T)) :
  forall i fx fy,
    coulombLoop (Some nd) nodeIndex i rest fx fy
    = Some (fold_left (addTerm nd) (others nodeIndex i rest) (fx, fy)).
Proof.
  induction rest as [|other rest IH]; intros i fx fy; simpl; auto.
  destruct (Nat.eqb i nodeIndex); rewrite IH; reflexivity.
Qed.

Lemma calculateCoulombRepulsion_sum (nodeIndex : nat) (ns : list (Node T)) nd :
  nth_error ns nodeIndex = Some nd ->
  calculateCoulombRepulsion nodeIndex ns
  = Some (fold_left (addTerm nd) (others nodeIndex 0 ns) (zero, zero)).
Proof.
  intros E; unfold calculateCoulombRepulsion; rewrite E; apply coulombLoop_sum.
Qed.

End RepulsionSum.

Section RepulsionExact.
Local Open Scope R_scope.

Definition magnitude (f : R * R) : R :=
  R_sqrt.sqrt (fst f * fst f + snd f * snd f).

(** The magnitude the specification gives for the pair. *)
Definition specRepulsion (node other : Node R) : R :=
  COULOMB_CONSTANT * (1 + stress node * STRESS_THRESHOLD)
  / ((distance node other + 1) * (distance node other + 1)).

Lemma distance_sym (n1 n2 : Node R) : distance n1 n2 = distance n2 n1.
Proof.
  unfold distance; cbn [add sub mul sqrt Exact.number]; f_equal; ring.
Qed.

Lemma distance_nonneg (n1 n2 : Node R) : 0 <= distance n1 n2.
Proof. unfold distance; cbn [add sub mul sqrt Exact.number]; apply sqrt_pos. Qed.

Lemma distance_sqr (n1 n2 : Node R) :
  distance n1 n2 * distance n1 n2
  = (x n1 - x n2) * (x n1 - x n2) + (y n1 - y n2) * (y n1 - y n2).
Proof.
  rewrite distance_sym; unfold distance; cbn [add sub mul sqrt Exact.number].
  apply sqrt_sqrt, Rplus_le_le_0_compat; apply Rle_0_sqr.
Qed.

Lemma coulombTerm_exact (node other : Node R) :
  let d := distance node other in
  coulombTerm node other
  = ((x node - x other) / (d + 1) * specRepulsion node other,
     (y node - y other) / (d + 1) * specRepulsion node other).
Proof.
  intros d; subst d; unfold specRepulsion.
  rewrite (distance_sym node other); reflexivity.
Qed.

Lemma specRepulsion_pos (node other : Node R) :
  0 <= stress node -> 0 < specRepulsion node other.
Proof.
  intros Hs; pose proof (distance_nonneg node other) as Hd.
  unfold specRepulsion, COULOMB_CONSTANT, STRESS_THRESHOLD, dec;
    cbn [add sub mul div fromZ Exact.number].
  apply Rdiv_lt_0_compat; nra.
Qed.

Lemma coulombTerm_magnitude (node other : Node R) :
  0 <= stress node ->
  let d := distance node other in
  magnitude (coulombTerm node other) = specRepulsion node other * (d / (d + 1)).
Proof.
  intros Hs d; rewrite coulombTerm_exact; fold d.
  pose proof (distance_nonneg node other) as Hd; fold d in Hd.
  pose proof (distance_sqr node other) as Hq; fold d in Hq.
  pose proof (@specRepulsion_pos node other Hs) as HF.
  set (F := specRepulsion node other) in *.
  unfold magnitude; cbn [fst snd].
  assert (E : (x node - x other) / (d + 1) * F * ((x node - x other) / (d + 1) * F)
              + (y node - y other) / (d + 1) * F * ((y node - y other) / (d + 1) * F)
              = F * (d / (d + 1)) * (F * (d / (d + 1)))).
  { transitivity (F * F * (d * d) / ((d + 1) * (d + 1))).
    - rewrite Hq; field; lra.
    - field; lra. }
  rewrite E; apply sqrt_square.
  apply Rmult_le_pos; [lra|].
  unfold Rdiv; apply Rmult_le_pos; [lra|].
  left; apply Rinv_0_lt_compat; lra.
Qed.

End RepulsionExact.

Section RepulsionClaim.
Local Open Scope R_scope.

Definition nodeAt (i : nat) (px py : Z) : Node R :=
  initNode (mkInit i SUPPLIER px py 0 "n").

Lemma distance_3_4 : distance (nodeAt 0 3 4) (nodeAt 1 0 0) = 5.
Proof.
  unfold distance, nodeAt; simpl.
  replace ((0 - 3) * (0 - 3) + (0 - 4) * (0 - 4)) with (5 * 5) by lra.
  apply sqrt_square; lra.
Qed.

Lemma stress_nodeAt i px py : 0 <= stress (nodeAt i px py).
Proof. unfold nodeAt; simpl; lra. Qed.

(** C5, as stated, fails: for a node at (3,4) and another at (0,0), five
    apart, the term added to the first node's force has five sixths of the
    magnitude [k_repulsion * (1 + stress * stressThreshold) / (distance+1)^2]. *)
Lemma repulsion_magnitude_counterexample :
  magnitude (coulombTerm (nodeAt 0 3 4) (nodeAt 1 0 0))
  = 5 / 6 * specRepulsion (nodeAt 0 3 4) (nodeAt 1 0 0) /\
  magnitude (coulombTerm (nodeAt 0 3 4) (nodeAt 1 0 0))
  <> specRepulsion (nodeAt 0 3 4) (nodeAt 1 0 0).
Proof.
  pose proof (@coulombTerm_magnitude (nodeAt 0 3 4) (nodeAt 1 0 0)
                (stress_nodeAt 0 3 4)) as H.
  pose proof (@specRepulsion_pos (nodeAt 0 3 4) (nodeAt 1 0 0)
                (stress_nodeAt 0 3 4)) as HF.
  cbv zeta in H; rewrite distance_3_4 in H.
  split; [rewrite H; lra | rewrite H; lra].
Qed.

(** C5, amended. [calculateCoulombRepulsion] adds one term per other node.
    Over the reals, for a node of non-negative stress, that term is the
    offset from the other node to this one times a positive factor (it
    points away from the other node and vanishes when the two coincide),
    and its magnitude is
    [k_repulsion * (1 + stress * stressThreshold) / (distance+1)^2] times
    [distance / (distance+1)]: the code divides the offset by [distance+1],
    not by [distance]. *)
Theorem repulsion_term_exact :
  (forall (T : Type) (num : Number T) (i : nat) (ns : list (Node T)) (nd : Node T),
      nth_error ns i = Some nd ->
      calculateCoulombRepulsion i ns
      = Some (fold_left (addTerm nd) (others i 0 ns) (zero, zero)))
  /\
  (forall node other : Node R,
      0 <= stress node ->
      let d := distance node other in
      (exists k, 0 < k /\
         coulombTerm node other
         = (k * (x node - x other), k * (y node - y other))) /\
      magnitude (coulombTerm node other)
      = COULOMB_CONSTANT * (1 + stress node * STRESS_THRESHOLD)
        / ((d + 1) * (d + 1)) * (d / (d + 1))).
Proof.
  split.
  - intros T num i ns nd E; apply calculateCoulombRepulsion_sum, E.
  - intros node other Hs d; split.
    + pose proof (distance_nonneg node other) as Hd; fold d in Hd.
      pose proof (@specRepulsion_pos node other Hs) as HF.
      exists (specRepulsion node other / (d + 1)); split.
      * apply Rdiv_lt_0_compat; lra.
      * rewrite coulombTerm_exact; fold d; f_equal; field; lra.
    + apply (@coulombTerm_magnitude node other Hs).
Qed.

(** The amended statement on the pair above and on the two-node array
    holding it. *)
Lemma repulsion_term_exact_witness :
  calculateCoulombRepulsion 0 [nodeAt 0 3 4; nodeAt 1 0 0]
  = Some (0 + fst (coulombTerm (nodeAt 0 3 4) (nodeAt 1 0 0)),
          0 + snd (coulombTerm (nodeAt 0 3 4) (nodeAt 1 0 0)))
  /\
  magnitude (coulombTerm (nodeAt 0 3 4) (nodeAt 1 0 0))
  = COULOMB_CONSTANT * (1 + stress (nodeAt 0 3 4) * STRESS_THRESHOLD)
    / ((distance (nodeAt 0 3 4) (nodeAt 1 0 0) + 1)
       * (distance (nodeAt 0 3 4) (nodeAt 1 0 0) + 1))
    * (distance (nodeAt 0 3 4) (nodeAt 1 0 0)
       / (distance (nodeAt 0 3 4) (nodeAt 1 0 0) + 1)).
Proof.
  destruct repulsion_term_exact as [Hsum Hterm].
  split.
  - rewrite (Hsum R _ 0%nat [nodeAt 0 3 4; nodeAt 1 0 0] (nodeAt 0 3 4) eq_refl).
    reflexivity.
  - apply (Hterm (nodeAt 0 3 4) (nodeAt 1 0 0) (stress_nodeAt 0 3 4)).
Defined.

End RepulsionClaim.

(** ** C1: ageing and pruning of shockwaves *)

Section ShockwaveLife.
Context {T : Type} {num : Number T}.









Lemma tick_shockwaves (c : Component T) :
  edgesInRange (physics (engine c)) ->
  shockwavesOf (tick c) = updateShockwaves (shockwavesOf c).
Proof.
  intros Hr; unfold shockwavesOf, tick; simpl.
  destruct (simulationStep_returns (engine c) Hr) as [out Hout].
  pose proof (simulationStep_spec (engine c)) as H.
  destruct (simulationStep (engine c)) as [e' r]; simpl in *; subst r.
  destruct H as (pre & st & _ & -> & _); reflexivity.
Qed.


(** [triggerShockwave] called on the hook of a component. *)
Definition trigger (sx sy f : T) (c : Component T) : Component T :=
  set_engine c (triggerShockwave sx sy f (engine c)).

End ShockwaveLife.

Section DecayExact.
Local Open Scope R_scope.










End DecayExact.



(** ** C8: non-finite values are not detected *)

Section NaNAbsorbs.
Local Open Scope float_scope.

Lemma Prim2SF_nan : Prim2SF nan = S754_nan.
Proof. reflexivity. Qed.

Lemma add_nan_l (b : float) : nan + b = nan.
Proof. apply Prim2SF_inj; rewrite add_spec, Prim2SF_nan; reflexivity. Qed.

Lemma add_nan_r (a : float) : a + nan = nan.
Proof.
  apply Prim2SF_inj; rewrite add_spec, Prim2SF_nan.
  unfold SF64add, SFadd; destruct (Prim2SF a); reflexivity.
Qed.

Lemma mul_nan_l (b : float) : nan * b = nan.
Proof. apply Prim2SF_inj; rewrite mul_spec, Prim2SF_nan; reflexivity. Qed.

Lemma mul_nan_r (a : float) : a * nan = nan.
Proof.
  apply Prim2SF_inj; rewrite mul_spec, Prim2SF_nan.
  unfold SF64mul, SFmul; destruct (Prim2SF a); reflexivity.
Qed.

Lemma sqrt_nan : PrimFloat.sqrt nan = nan.
Proof. reflexivity. Qed.

(** No comparison with NaN holds. *)
Lemma ltb_nan_r (a : float) : (a <? nan) = false.
Proof.
  rewrite ltb_spec, Prim2SF_nan.
  unfold SFltb, SFcompare; destruct (Prim2SF a); reflexivity.
Qed.

End NaNAbsorbs.

(** *** Non-finite values in general *)

Section NonFinite.
Local Open Scope float_scope.

(** [!Number.isFinite(a)] *)
Definition nonFinite (a : float) : Prop := is_finite a = false.

Definition sfNonFinite (f : spec_float) : bool :=
  match f with
  | S754_nan | S754_infinity _ => true
  | _ => false
  end.

Lemma SFcompare_finite_refl s m e :
  SFcompare (S754_finite s m e) (S754_finite s m e) = Some Eq.
Proof.
  unfold SFcompare; destruct s; rewrite Z.compare_refl, Pos.compare_cont_refl;
    reflexivity.
Qed.

Lemma is_finite_spec (a : float) : is_finite a = negb (sfNonFinite (Prim2SF a)).
Proof.
  unfold is_finite, is_nan, is_infinity.
  rewrite !eqb_spec, abs_spec.
  change (Prim2SF infinity) with (S754_infinity false).
  unfold SFeqb; destruct (Prim2SF a) as [s|s| |s m e].
  - destruct s; reflexivity.
  - destruct s; reflexivity.
  - reflexivity.
  - rewrite SFcompare_finite_refl; reflexivity.
Qed.

Lemma nonFinite_spec (a : float) : nonFinite a <-> sfNonFinite (Prim2SF a) = true.
Proof.
  unfold nonFinite; rewrite is_finite_spec.
  destruct (sfNonFinite (Prim2SF a)); simpl; split; congruence.
Qed.

Lemma nonFinite_nan : nonFinite nan.
Proof. reflexivity. Qed.

Ltac sf_cases :=
  repeat match goal with
         | |- context [Prim2SF ?a] => destruct (Prim2SF a) as [[|]|[|]| |[|] ? ?]
         end;
  simpl in *; try discriminate; try reflexivity.

Lemma nonFinite_add_l (a b : float) : nonFinite a -> nonFinite (a + b).
Proof.
  rewrite !nonFinite_spec, add_spec; unfold SF64add, SFadd; sf_cases.
Qed.

Lemma nonFinite_add_r (a b : float) : nonFinite b -> nonFinite (a + b).
Proof.
  rewrite !nonFinite_spec, add_spec; unfold SF64add, SFadd; sf_cases.
Qed.

Lemma nonFinite_mul_l (a b : float) : nonFinite a -> nonFinite (a * b).
Proof.
  rewrite !nonFinite_spec, mul_spec; unfold SF64mul, SFmul; sf_cases.
Qed.

Lemma nonFinite_div (a b : float) : nonFinite a -> nonFinite b -> nonFinite (a / b).
Proof.
  rewrite !nonFinite_spec, div_spec; unfold SF64div, SFdiv; sf_cases.
Qed.

Lemma nonFinite_sqrt (a : float) : nonFinite a -> nonFinite (PrimFloat.sqrt a).
Proof.
  rewrite !nonFinite_spec, sqrt_spec; unfold SF64sqrt, SFsqrt; sf_cases.
Qed.

(** A value that went bad stays bad: NaN stays NaN, non-finite stays
    non-finite. *)
Definition stuck (a a' : float) : Prop :=
  (a = nan -> a' = nan) /\ (nonFinite a -> nonFinite a').

Lemma stuck_refl a : stuck a a.
Proof. split; auto. Qed.

Lemma stuck_trans a b c : stuck a b -> stuck b c -> stuck a c.
Proof. intros [H1 H2] [H3 H4]; split; auto. Qed.

Definition stuckNode (n n' : Node float) : Prop :=
  stuck (x n) (x n') /\ stuck (y n) (y n') /\
  stuck (vx n) (vx n') /\ stuck (vy n) (vy n').

Lemma stuckNode_refl n : stuckNode n n.
Proof. repeat split; auto. Qed.

Lemma stuckNode_trans n1 n2 n3 :
  stuckNode n1 n2 -> stuckNode n2 n3 -> stuckNode n1 n3.
Proof.
  intros (A & B & C & D) (A' & B' & C' & D');
    repeat split; eauto using stuck_trans; eapply stuck_trans; eauto.
Qed.

End NonFinite.

Section NonFiniteStays.
Variable mathPow : float -> nat -> float.
Variable mathLog : float -> float.

Let num : Number float := js mathPow mathLog.
#[local] Existing Instance num.

Lemma integrate_x_stuck (n : Node float) : stuck (x n) (x (integrate n)).
Proof.
  unfold integrate; simpl.
  match goal with |- context [if ?b then _ else _] => destruct b end;
    simpl; split; intros H;
    try (rewrite H; apply add_nan_l); apply nonFinite_add_l, H.
Qed.

Lemma integrate_y_stuck (n : Node float) : stuck (y n) (y (integrate n)).
Proof.
  unfold integrate; simpl.
  match goal with |- context [if ?b then _ else _] => destruct b end;
    simpl; split; intros H;
    try (rewrite H; apply add_nan_l); apply nonFinite_add_l, H.
Qed.

Lemma integrate_vx_stuck (n : Node float) : stuck (vx n) (vx (integrate n)).
Proof.
  unfold integrate; simpl; split; intros H.
  - rewrite H, add_nan_l, !mul_nan_l, add_nan_l, sqrt_nan, ltb_nan_r; reflexivity.
  - assert (H1 : nonFinite (PrimFloat.mul (PrimFloat.add (vx n) (PrimFloat.mul (ax n) TIME_STEP)) DAMPING))
      by (apply nonFinite_mul_l, nonFinite_add_l, H).
    match goal with |- context [if ?b then _ else _] => destruct b end; simpl; auto.
    apply nonFinite_mul_l, nonFinite_div; auto.
    apply nonFinite_sqrt, nonFinite_add_l, nonFinite_mul_l, H1.
Qed.

Lemma integrate_vy_stuck (n : Node float) : stuck (vy n) (vy (integrate n)).
Proof.
  unfold integrate; simpl; split; intros H.
  - rewrite H, add_nan_l, !mul_nan_l, add_nan_r, sqrt_nan, ltb_nan_r; reflexivity.
  - assert (H1 : nonFinite (PrimFloat.mul (PrimFloat.add (vy n) (PrimFloat.mul (ay n) TIME_STEP)) DAMPING))
      by (apply nonFinite_mul_l, nonFinite_add_l, H).
    match goal with |- context [if ?b then _ else _] => destruct b end; simpl; auto.
    apply nonFinite_mul_l, nonFinite_div; auto.
    apply nonFinite_sqrt, nonFinite_add_r, nonFinite_mul_l, H1.
Qed.

Lemma integrate_stuck (n : Node float) : stuckNode n (integrate n).
Proof.
  repeat split; try apply integrate_x_stuck; try apply integrate_y_stuck;
    try apply integrate_vx_stuck; apply integrate_vy_stuck.
Qed.

Lemma accOnly_stuck (n n' : Node float) : accOnly n n' -> stuckNode n n'.
Proof. intros ->; unfold stuckNode; simpl; repeat split; auto. Qed.

Lemma step_stuck (e : Engine float) :
  Forall2 stuckNode (nodes (physics e)) (nodes (physics (fst (simulationStep e)))).
Proof.
  pose proof (simulationStep_spec e) as H.
  destruct (simulationStep e) as [e' [out|]]; simpl in *.
  - destruct H as (pre & st & Hacc & -> & _); simpl.
    induction Hacc; simpl; constructor; auto.
    eapply stuckNode_trans; [apply accOnly_stuck; eassumption | apply integrate_stuck].
  - destruct H as (ns & Hacc & ->); simpl.
    induction Hacc; constructor; auto using accOnly_stuck.
Qed.

Lemma Forall2_stuck_trans (l1 l2 l3 : list (Node float)) :
  Forall2 stuckNode l1 l2 -> Forall2 stuckNode l2 l3 -> Forall2 stuckNode l1 l3.
Proof.
  intros H; revert l3; induction H; intros l3 H3; inversion H3; subst;
    constructor; eauto using stuckNode_trans.
Qed.

Lemma Forall2_stuck_refl (l : list (Node float)) : Forall2 stuckNode l l.
Proof. induction l; constructor; auto using stuckNode_refl. Qed.

Lemma ticks_stuck (k : nat) : forall c : Component float,
  Forall2 stuckNode (nodesOf c) (nodesOf (run c (repeat Tick k))).
Proof.
  induction k as [|k IH]; intros c; [apply Forall2_stuck_refl|].
  change (repeat Tick (S k)) with (@Tick float :: repeat Tick k).
  rewrite run_cons; eapply Forall2_stuck_trans; [|apply IH].
  apply step_stuck.
Qed.

End NonFiniteStays.

(** C8, amended. The step neither detects nor resets non-finite values:
    whatever [Math.pow] and [Math.log] compute, through any number of
    ticks a position or velocity component of a node that is NaN stays
    NaN, and one that is not finite (NaN or an infinity) stays not finite
    (also when a step throws). *)
Theorem nonfinite_not_detected :
  forall (mathPow : float -> nat -> float) (mathLog : float -> float)
         (c : Component float) (k : nat),
    Forall2 stuckNode (nodesOf c)
            (nodesOf (@run float (js mathPow mathLog) c (repeat Tick k))).
Proof. intros; apply ticks_stuck. Qed.

Section Contamination.
#[local] Existing Instance JS.reference.

(** Two nodes constructed at the same place and joined by an edge, and a
    third one apart from them, not connected to anything. *)
Definition trio : Component float :=
  mountWith [ mkInit 0 SUPPLIER 100 100 2 "A"; mkInit 1 WAREHOUSE 100 100 4 "B";
              mkInit 2 RETAILER 300 300 3 "C" ]
            [ mkEdge 0 1 ].

(** Which of [x], [y], [vx], [vy] are NaN. *)
Definition nanAt (n : Node float) : bool * bool * bool * bool :=
  (is_nan (x n), is_nan (y n), is_nan (vx n), is_nan (vy n)).

Definition allNaN := (true, true, true, true).
Definition noNaN := (false, false, false, false).

(** C8, as stated, fails: the first tick makes the position and velocity
    of the two coincident nodes NaN; nothing resets them before the forces
    of the second tick are computed, and through the repulsion they make
    the third node NaN as well. *)
Lemma nonfinite_reset_counterexample :
  map nanAt (nodesOf trio) = [noNaN; noNaN; noNaN] /\
  map nanAt (nodesOf (run trio [Tick])) = [allNaN; allNaN; noNaN] /\
  map nanAt (nodesOf (run trio [Tick; Tick])) = [allNaN; allNaN; allNaN].
Proof. vm_compute; repeat split; reflexivity. Qed.

End Contamination.

Section DragOntoNeighbour.
#[local] Existing Instance JS.reference.

(** The same degenerate geometry in the component as shipped: node 2 is
    pressed where it is drawn, (500,200), and dragged onto node 0 at
    (400,100), to which an edge joins it. *)
Definition node2View : NodeView float :=
  {| v_id := 2; v_x := 500; v_y := 200; v_stress := 0.1; v_type := SUPPLIER;
     v_label := "Raw Materials S3"; v_vx := 0; v_vy := 0 |}%float.

Definition dragOntoNeighbour : list (Event float) :=
  [ NodeMouseDown 500 200 node2View; MouseMove 400 100 0 0 ]%float.

Lemma drag_onto_neighbour_nan :
  nth_error (getNodes (engine mount)) 2 = Some node2View /\
  positionOf 2 (run mount dragOntoNeighbour) = positionOf 0 (run mount dragOntoNeighbour) /\
  calculateHookeAttraction (mkEdge 0 2) (nodesOf (run mount dragOntoNeighbour))
  = Some (nan, nan, 120%float) /\
  map (withinCap JS.powNat JS.logApprox)
      (nodesOf (run mount (dragOntoNeighbour ++ [Tick])))
  = [false; true; false; true; true; true; true; true; true; true; true] /\
  map nanAt (nodesOf (run mount (dragOntoNeighbour ++ [Tick; Tick])))
  = repeat allNaN 11.
Proof. vm_compute; repeat split; reflexivity. Qed.

End DragOntoNeighbour.

(** ** C3: the velocity cap *)

Section VelocityCapExact.
Local Open Scope R_scope.

Definition capped (n : Node R) : Prop := speedOf n <= MAX_VELOCITY.

Lemma speedOf_set_pos (n : Node R) px py : speedOf (set_pos n px py) = speedOf n.
Proof. reflexivity. Qed.

Lemma capped_clamp (n : Node R) : capped (clampVelocity n).
Proof.
  unfold capped; destruct (clampVelocity_exact n) as [Hover Hunder].
  destruct (Rlt_le_dec MAX_VELOCITY (speedOf n)) as [H|H].
  - destruct (Hover H) as [-> _]; apply Rle_refl.
  - rewrite (Hunder H); exact H.
Qed.

Lemma capped_integrate (n : Node R) : capped (integrate n).
Proof.
  rewrite integrate_is_spec; unfold integrateSpec, advance, capped.
  rewrite speedOf_set_pos; apply capped_clamp.
Qed.

Lemma capped_at_rest (n : Node R) : vx n = 0 -> vy n = 0 -> capped n.
Proof.
  intros Hx Hy; unfold capped, speedOf, MAX_VELOCITY;
    cbn [add mul sqrt fromZ Exact.number]; rewrite Hx, Hy.
  replace (0 * 0 + 0 * 0) with 0 by ring; rewrite sqrt_0; lra.
Qed.

Lemma capped_same_velocity (n n' : Node R) :
  vx n' = vx n -> vy n' = vy n -> capped n -> capped n'.
Proof. unfold capped, speedOf; intros -> ->; auto. Qed.

Lemma capped_accOnlyL (l l' : list (Node R)) :
  accOnlyL l l' -> Forall capped l -> Forall capped l'.
Proof.
  induction 1 as [|n n' l l' Hn _ IH]; intros H; [constructor|].
  inversion H; subst; constructor; [|apply IH; assumption].
  apply capped_same_velocity with (n := n); try assumption; rewrite Hn; reflexivity.
Qed.

Lemma capped_update i f (l : list (Node R)) :
  (forall n, capped (f n)) -> Forall capped l -> Forall capped (update i f l).
Proof.
  intros Hf H; revert i; induction H; intros [|i]; simpl; constructor; auto.
Qed.

Lemma capped_resetLoop (l : list (Node R)) : forall init,
  Forall capped l -> Forall capped (fst (resetLoop l init)).
Proof.
  induction l as [|n l IH]; intros [|i0 init] H; simpl; auto.
  inversion H; subst; specialize (IH init ltac:(assumption)).
  destruct (resetLoop l init) as [rest ok]; simpl in *.
  constructor; [apply capped_at_rest; reflexivity | exact IH].
Qed.

Lemma capped_randomizeLoop random (l : list (Node R)) : forall k,
  Forall capped l -> Forall capped (randomizeLoop random k l).
Proof.
  induction l as [|n l IH]; intros k H; simpl; auto.
  inversion H; subst; constructor; auto.
Qed.

Lemma capped_tick (c : Component R) :
  Forall capped (nodesOf c) -> Forall capped (nodesOf (tick c)).
Proof.
  unfold nodesOf, tick; simpl; intros H.
  pose proof (simulationStep_spec (engine c)) as Hs.
  destruct (simulationStep (engine c)) as [e' [out|]]; simpl in *.
  - destruct Hs as (pre & st & _ & -> & _); simpl.
    apply Forall_forall; intros n Hin; apply in_map_iff in Hin.
    destruct Hin as (m & <- & _); apply capped_integrate.
  - destruct Hs as (ns & Hacc & ->); simpl.
    eapply capped_accOnlyL; eauto.
Qed.

Lemma capped_fire (c : Component R) (ev : Event R) :
  Forall capped (nodesOf c) -> Forall capped (nodesOf (fire c ev)).
Proof.
  intros H; destruct ev; simpl; auto.
  - apply capped_tick, H.
  - unfold handleMouseMove; destruct (draggingNode c) as [dn|]; auto.
    unfold nodesOf in *; simpl.
    destruct (findIndex (v_id dn) 0 (nodes (physics (engine c)))); simpl; auto.
    apply capped_update; auto.
    intros m; apply capped_at_rest; reflexivity.
  - unfold handleMouseUp; destruct (draggingNode c); auto.
  - unfold handleBackgroundClick; destruct onBackground; auto.
  - unfold resetNetwork, nodesOf in *.
    pose proof (capped_resetLoop INITIAL_NODES H) as Hr.
    destruct (resetLoop (nodes (physics (engine c))) INITIAL_NODES) as [ns [|]];
      simpl in *; exact Hr.
  - unfold nodesOf in *; simpl; apply capped_randomizeLoop, H.
Qed.

Lemma capped_run (evs : list (Event R)) : forall c : Component R,
  Forall capped (nodesOf c) -> Forall capped (nodesOf (run c evs)).
Proof.
  induction evs as [|ev evs IH]; intros c H; [exact H|].
  rewrite run_cons; apply IH, capped_fire, H.
Qed.

End VelocityCapExact.

(** C3, amended. In exact real arithmetic, in every state the component
    reaches from its construction (whatever nodes and edges it is given,
    after any number of ticks and other events) every node's velocity
    magnitude [sqrt (vx^2 + vy^2)] is at most 15.  The bound comes from
    the clamp alone: it holds whatever the accelerations are. *)
Theorem velocity_cap_exact :
  forall (ns : list (InitNode R)) (es : list Edge) (evs : list (Event R)),
    Forall (fun n => (R_sqrt.sqrt (vx n * vx n + vy n * vy n) <= 15)%R)
           (nodesOf (run (mountWith ns es) evs)).
Proof.
  intros ns es evs; apply (@capped_run evs (mountWith ns es)).
  unfold nodesOf; simpl.
  induction ns; simpl; constructor; auto.
  apply capped_at_rest; reflexivity.
Qed.

Section VelocityCapBinary64.
#[local] Existing Instance JS.reference.

(** Two unconnected nodes, at (500,300) and (501,301). *)
Definition closePair : Component float :=
  mountWith [ mkInit 0 SUPPLIER 500 300 2 "A"; mkInit 1 WAREHOUSE 501 301 4 "B" ] [].

Definition velocityAndSpeed (n : Node float) : float * float * float :=
  (vx n, vy n, speedOf n).

(** C3, as stated, fails in binary64: the repulsion drives the two nodes
    apart, the second tick clamps both velocities, and the magnitude of
    each clamped velocity, computed as the claim does, is
    15.000000000000002, above the cap. *)
Lemma velocity_cap_counterexample :
  map velocityAndSpeed (nodesOf (run closePair [Tick; Tick]))
  = [ (-10.606601717798213, -10.606601717798213, 15.000000000000002);
      (10.606601717798213, 10.606601717798213, 15.000000000000002) ]%float /\
  map (fun n => PrimFloat.leb (speedOf n) MAX_VELOCITY)
      (nodesOf (run closePair [Tick; Tick]))
  = [false; false].
Proof. vm_compute; split; reflexivity. Qed.

End VelocityCapBinary64.

(** * More of the engine and of the component *)

(** ** When the step throws *)

Section StepFailure.
Context {T : Type} {num : Number T}.

Lemma calculateHookeAttraction_none edge (ns : list (Node T)) :
  ~ edgeInRange (List.length ns) edge -> calculateHookeAttraction edge ns = None.
Proof.
  unfold edgeInRange, calculateHookeAttraction; intros H.
  destruct (nth_error ns (source edge)) eqn:Es; [|reflexivity].
  destruct (nth_error ns (target edge)) eqn:Et; [|reflexivity].
  exfalso; apply H; split; apply nth_error_Some; congruence.
Qed.

Lemma edgeInRange_dec len edge : {edgeInRange len edge} + {~ edgeInRange len edge}.
Proof.
  unfold edgeInRange.
  destruct (lt_dec (source edge) len), (lt_dec (target edge) len);
    [left; auto | right | right | right]; intros [? ?]; contradiction.
Qed.

Lemma hookePhase_returns_inv es : forall (ns : list (Node T)) tt,
  snd (hookePhase es ns tt) <> None ->
  Forall (edgeInRange (List.length ns)) es.
Proof.
  induction es as [|edge es IH]; intros ns tt H; [constructor|].
  simpl in H.
  destruct (edgeInRange_dec (List.length ns) edge) as [Hin|Hout].
  - constructor; [exact Hin|].
    destruct (@calculateHookeAttraction_some _ _ edge ns Hin) as [[[fx fy] tens] E].
    rewrite E in H; apply IH in H; rewrite !update_length in H; exact H.
  - rewrite (calculateHookeAttraction_none _ Hout) in H; simpl in H; congruence.
Qed.

Lemma simulationStep_returns_inv (e : Engine T) :
  snd (simulationStep e) <> None -> edgesInRange (physics e).
Proof.
  unfold edgesInRange, simulationStep; set (p := physics e).
  pose proof (@coulombPhase_acc _ _ (List.length (map resetAcc (nodes p))) 0
                (map resetAcc (nodes p)) _ (accOnlyL_refl _)) as Hacc.
  destruct (coulombPhase _ 0 (map resetAcc (nodes p))) as [ns1 ok].
  simpl in Hacc; apply accOnlyL_length in Hacc; rewrite length_map in Hacc.
  destruct ok; [|simpl; congruence].
  pose proof (@hookePhase_returns_inv (edges p) ns1 zero) as Hh.
  destruct (hookePhase (edges p) ns1 zero) as [ns2 [t|]]; simpl in *.
  - intros _; rewrite <- Hacc; apply Hh; congruence.
  - congruence.
Qed.

Lemma fire_edges (c : Component T) (ev : Event T) :
  edges (physics (engine (fire c ev))) = edges (physics (engine c)).
Proof.
  destruct ev; simpl; auto.
  - apply step_rest.
  - unfold handleMouseMove; destruct (draggingNode c) as [dn|]; auto; simpl.
    destruct (findIndex (v_id dn) 0 (nodes (physics (engine c)))); reflexivity.
  - unfold handleMouseUp; destruct (draggingNode c); reflexivity.
  - unfold handleBackgroundClick; destruct onBackground; reflexivity.
  - unfold resetNetwork.
    destruct (resetLoop (nodes (physics (engine c))) INITIAL_NODES) as [ns [|]];
      reflexivity.
Qed.

Lemma run_edges (evs : list (Event T)) : forall c : Component T,
  edges (physics (engine (run c evs))) = edges (physics (engine c)).
Proof.
  induction evs as [|ev evs IH]; intros c; [reflexivity|].
  rewrite run_cons, IH; apply fire_edges.
Qed.

Lemma run_edgesInRange (evs : list (Event T)) (c : Component T) :
  edgesInRange (physics (engine c)) ->
  edgesInRange (physics (engine (run c evs))).
Proof.
  unfold edgesInRange; rewrite run_edges.
  change (nodes (physics (engine (run c evs)))) with (nodesOf (run c evs)).
  rewrite run_length; auto.
Qed.

End StepFailure.

(** X1. [simulationStep] returns its list of nodes exactly when every edge
    names two existing nodes (by array index); otherwise reading
    [nodes[edge.source]] or [nodes[edge.target]] throws. *)
Theorem step_returns_iff_edges_in_range :
  forall (T : Type) (num : Number T) (e : Engine T),
    (exists out, snd (simulationStep e) = Some out) <-> edgesInRange (physics e).
Proof.
  intros T num e; split.
  - intros [out H]; apply simulationStep_returns_inv; congruence.
  - apply simulationStep_returns.
Qed.

(** X2. A step that throws has not advanced the simulation: positions,
    velocities and every other node field but the accelerations, the
    shockwaves (not aged) and the published statistics are as before. *)
Theorem failed_step_changes_accelerations_only :
  forall (T : Type) (num : Number T) (e : Engine T),
    snd (simulationStep e) = None ->
    let e' := fst (simulationStep e) in
    Forall2 (fun n n' => n' = set_acc n (ax n') (ay n'))
            (nodes (physics e)) (nodes (physics e')) /\
    shockwaves (physics e') = shockwaves (physics e) /\
    stats e' = stats e.
Proof.
  intros T num e H; pose proof (simulationStep_spec e) as Hs.
  destruct (simulationStep e) as [e' [out|]]; simpl in *; [discriminate|].
  destruct Hs as (ns & Hacc & ->); simpl; auto.
Qed.

Section StepFailureWitness.
#[local] Existing Instance JS.reference.

(** One node and an edge to a node that does not exist. *)
Definition dangling : Component float :=
  trigger 10%float 20%float 1000%float
          (mountWith [ mkInit 0 SUPPLIER 100 100 2 "A" ] [ mkEdge 0 5 ]).

Lemma failed_step_changes_accelerations_only_witness :
  shockwavesOf (tick dangling) = shockwavesOf dangling /\
  stats (engine (tick dangling)) = stats (engine dangling).
Proof.
  apply (@failed_step_changes_accelerations_only float _ (engine dangling)).
  vm_compute; reflexivity.
Defined.

End StepFailureWitness.

(** X3. The node array never changes length and the edge list never
    changes at all, whatever happens to the component; so when the edges
    given to the hook are in range, no step ever throws.  This covers the
    shipped network. *)
Theorem step_never_throws :
  forall (T : Type) (num : Number T) (ns : list (InitNode T)) (es : list Edge)
         (evs : list (Event T)),
    Forall (edgeInRange (List.length ns)) es ->
    let c := run (mountWith ns es) evs in
    List.length (nodesOf c) = List.length ns /\
    edges (physics (engine c)) = es /\
    exists out, snd (simulationStep (engine c)) = Some out.
Proof.
  intros T num ns es evs H c; subst c.
  split; [rewrite run_length; apply length_map|].
  split; [rewrite run_edges; reflexivity|].
  apply simulationStep_returns, run_edgesInRange.
  unfold edgesInRange; simpl; rewrite length_map; exact H.
Qed.

Lemma step_never_throws_witness :
  exists out,
    snd (simulationStep
           (engine (run (@mount R _) [Tick; ResetNetwork; MouseUp; Tick])))
    = Some out.
Proof.
  apply (@step_never_throws R _ INITIAL_NODES INITIAL_EDGES
           [Tick; ResetNetwork; MouseUp; Tick]).
  repeat constructor; simpl; lia.
Defined.

(** ** Boundary forces *)

Section BoundaryExact.
Local Open Scope R_scope.

Ltac boundary_arith :=
  unfold calculateBoundaryForces, zero, dec;
  cbn [add sub mul div fromZ ltb Exact.number fst snd].

(** One axis of [calculateBoundaryForces]: coordinate [p], extent [w]. *)
Definition axisForce (w p : R) : R :=
  (if Exact.Rltb p 50 then 0 + (50 - p) * (1 / 10) else 0)
  + (if Exact.Rltb (w - 50) p then (w - 50 - p) * (1 / 10) else 0).

Lemma calculateBoundaryForces_axes (w h : R) (n : Node R) :
  calculateBoundaryForces w h n = (axisForce w (x n), axisForce h (y n)).
Proof.
  boundary_arith; unfold axisForce.
  destruct (Exact.Rltb (x n) 50), (Exact.Rltb (w - 50) (x n)),
           (Exact.Rltb (y n) 50), (Exact.Rltb (h - 50) (y n));
    f_equal; ring.
Qed.

Lemma axisForce_wide (w p : R) :
  100 <= w ->
  (50 <= p <= w - 50 -> axisForce w p = 0) /\
  (p < 50 -> axisForce w p = (50 - p) / 10 /\ 0 < axisForce w p) /\
  (w - 50 < p -> axisForce w p = (w - 50 - p) / 10 /\ axisForce w p < 0).
Proof.
  intros Hw; unfold axisForce; split; [|split]; intros Hp.
  - rewrite !Rltb_false by lra; ring.
  - rewrite Rltb_true, Rltb_false by lra; split; [field | lra].
  - rewrite Rltb_false, Rltb_true by lra; split; [field | lra].
Qed.

Lemma axisForce_narrow (w p : R) :
  w - 50 < p < 50 -> axisForce w p = (w - 2 * p) / 10.
Proof.
  intros H; unfold axisForce; rewrite !Rltb_true by lra; field.
Qed.

End BoundaryExact.

(** X4. Over the reals, in a viewport at least 100 wide and high the
    boundary force on a node is zero when the node is at least 50 inside
    every edge; on an axis where it is closer than 50 to the low edge (or
    beyond it) the force is a tenth of the shortfall, towards the
    interior, and likewise a tenth of the excess past [extent - 50],
    pointing back.  The two axes are independent. *)
Theorem boundary_force_restores :
  forall (w h : R) (n : Node R),
    (100 <= w)%R -> (100 <= h)%R ->
    let f := calculateBoundaryForces w h n in
    ((50 <= x n <= w - 50)%R -> fst f = 0%R) /\
    ((x n < 50)%R -> fst f = ((50 - x n) / 10)%R /\ (0 < fst f)%R) /\
    ((w - 50 < x n)%R -> fst f = ((w - 50 - x n) / 10)%R /\ (fst f < 0)%R) /\
    ((50 <= y n <= h - 50)%R -> snd f = 0%R) /\
    ((y n < 50)%R -> snd f = ((50 - y n) / 10)%R /\ (0 < snd f)%R) /\
    ((h - 50 < y n)%R -> snd f = ((h - 50 - y n) / 10)%R /\ (snd f < 0)%R).
Proof.
  intros w h n Hw Hh f; subst f; rewrite calculateBoundaryForces_axes; simpl.
  destruct (@axisForce_wide w (x n) Hw) as (A & B & C).
  destruct (@axisForce_wide h (y n) Hh) as (A' & B' & C').
  split; [exact A|]. split; [exact B|]. split; [exact C|].
  split; [exact A'|]. split; [exact B'|]. exact C'.
Qed.

(** A node at (20, 690) in the initial 1000 by 700 viewport. *)
Lemma boundary_force_restores_witness :
  calculateBoundaryForces 1000%R 700%R (nodeAt 0 20 690) = (3, -4)%R.
Proof.
  destruct (@boundary_force_restores 1000%R 700%R (nodeAt 0 20 690))
    as (_ & Hx & _ & _ & _ & Hy); try lra.
  destruct (calculateBoundaryForces 1000%R 700%R (nodeAt 0 20 690)) as [fx fy].
  simpl in Hx, Hy.
  destruct Hx as [-> _]; [lra|]. destruct Hy as [-> _]; [lra|].
  f_equal; lra.
Defined.

(** X5. Over the reals, in a viewport narrower than 100 the two margins
    overlap; a node in the overlap gets both forces, which add up to a
    fifth of its offset from the centre line, towards it. *)
Theorem boundary_force_narrow_viewport :
  forall (w h : R) (n : Node R),
    (w - 50 < x n < 50)%R ->
    fst (calculateBoundaryForces w h n) = ((w / 2 - x n) / 5)%R.
Proof.
  intros w h n H; rewrite calculateBoundaryForces_axes; simpl.
  rewrite (@axisForce_narrow w (x n) H); field.
Qed.

Lemma boundary_force_narrow_viewport_witness :
  fst (calculateBoundaryForces 80%R 700%R (nodeAt 0 35 300)) = 1%R.
Proof.
  rewrite (@boundary_force_narrow_viewport 80%R 700%R (nodeAt 0 35 300)).
  - simpl; lra.
  - simpl; lra.
Defined.

(** ** Shockwave forces *)

Section ShockwaveExact.
Local Open Scope R_scope.

Definition vsum (f g : R * R) : R * R := (fst f + fst g, snd f + snd g).

Definition addShock (n : Node R) (f : R * R) (sw : Shockwave R) : R * R :=
  let t := shockwaveTerm n sw in (add (fst f) (fst t), add (snd f) (snd t)).

Lemma vsum_addShock n f g sw : addShock n (vsum f g) sw = vsum f (addShock n g sw).
Proof.
  unfold addShock, vsum; cbn [add Exact.number fst snd]; f_equal; ring.
Qed.

Lemma fold_addShock_vsum n (sws : list (Shockwave R)) : forall f g,
  fold_left (addShock n) sws (vsum f g) = vsum f (fold_left (addShock n) sws g).
Proof.
  induction sws as [|sw sws IH]; intros f g; cbn [fold_left]; [reflexivity|].
  rewrite vsum_addShock; apply IH.
Qed.

Lemma fold_shockwaves_from (n : Node R) (sws : list (Shockwave R)) (f : R * R) :
  fold_left (addShock n) sws f = vsum f (applyShockwaves sws n).
Proof.
  change (applyShockwaves sws n) with (fold_left (addShock n) sws (zero, zero)).
  rewrite <- fold_addShock_vsum; f_equal.
  destruct f as [p q]; unfold vsum, zero; cbn [fromZ Exact.number fst snd];
    f_equal; ring.
Qed.

Lemma applyShockwaves_app (n : Node R) (a b : list (Shockwave R)) :
  applyShockwaves (a ++ b) n = vsum (applyShockwaves a n) (applyShockwaves b n).
Proof.
  change (applyShockwaves (a ++ b) n)
    with (fold_left (addShock n) (a ++ b) (zero, zero)).
  rewrite fold_left_app.
  change (fold_left (addShock n) a (zero, zero)) with (applyShockwaves a n).
  apply fold_shockwaves_from.
Qed.

(** The distance from a shockwave's origin to a node. *)
Definition reach (n : Node R) (sw : Shockwave R) : R :=
  R_sqrt.sqrt ((x n - sw_x sw) * (x n - sw_x sw) + (y n - sw_y sw) * (y n - sw_y sw)).

Lemma reach_nonneg n sw : 0 <= reach n sw.
Proof. apply sqrt_pos. Qed.

Lemma shockwaveTerm_exact (n : Node R) (sw : Shockwave R) :
  shockwaveTerm n sw
  = ((x n - sw_x sw) / (reach n sw + 1)
       * (force sw / ((reach n sw + 1) * (reach n sw + 1)))
       * (95 / 100) ^ age sw,
     (y n - sw_y sw) / (reach n sw + 1)
       * (force sw / ((reach n sw + 1) * (reach n sw + 1)))
       * (95 / 100) ^ age sw).
Proof. reflexivity. Qed.

End ShockwaveExact.

(** X6. Over the reals the shockwave force on a node is the sum of the
    forces of the single shockwaves: the force of two lists put together
    is the sum of their forces, whatever order they were triggered in. *)
Theorem shockwaves_superpose :
  forall (n : Node R) (a b : list (Shockwave R)),
    applyShockwaves (a ++ b) n
    = (fst (applyShockwaves a n) + fst (applyShockwaves b n),
       snd (applyShockwaves a n) + snd (applyShockwaves b n))%R /\
    applyShockwaves (a ++ b) n = applyShockwaves (b ++ a) n.
Proof.
  intros n a b; split; [apply applyShockwaves_app|].
  rewrite !applyShockwaves_app; unfold vsum; f_equal; ring.
Qed.

(** X7. Over the reals, the push of one shockwave (of positive force) on a
    node is the offset from the origin to the node times a positive
    factor, [force * 0.95^age / (d+1)^3] with [d] their distance: it points
    away from the origin, is zero at the origin itself, and one more tick
    of age multiplies it by 0.95. *)
Theorem shockwave_push :
  forall (n : Node R) (sw : Shockwave R),
    (0 < force sw)%R ->
    let k := (force sw * (95 / 100) ^ age sw
              / ((reach n sw + 1) * (reach n sw + 1) * (reach n sw + 1)))%R in
    (0 < k)%R /\
    shockwaveTerm n sw = (k * (x n - sw_x sw), k * (y n - sw_y sw))%R /\
    shockwaveTerm n (ageShockwave sw)
    = (95 / 100 * fst (shockwaveTerm n sw), 95 / 100 * snd (shockwaveTerm n sw))%R.
Proof.
  intros n sw Hf k; subst k.
  pose proof (reach_nonneg n sw) as Hd.
  assert (Hp : (0 < (95 / 100) ^ age sw)%R) by (apply pow_lt; lra).
  split; [|split].
  - apply Rdiv_lt_0_compat; [nra|].
    repeat apply Rmult_lt_0_compat; lra.
  - rewrite shockwaveTerm_exact; f_equal; field; lra.
  - rewrite !shockwaveTerm_exact.
    change (reach n (ageShockwave sw)) with (reach n sw).
    change (sw_x (ageShockwave sw)) with (sw_x sw).
    change (sw_y (ageShockwave sw)) with (sw_y sw).
    change (force (ageShockwave sw)) with (force sw).
    change (age (ageShockwave sw)) with (age sw + 1)%nat.
    rewrite Nat.add_1_r; cbn [fst snd]; rewrite <- tech_pow_Rmult.
    f_equal; field; lra.
Qed.

Definition clickAt (sx sy : R) : Shockwave R :=
  {| sw_x := sx; sw_y := sy; force := 800%R; age := 0 |}.

(** A background click at (0,0) felt by a node at (3,4). *)
Lemma shockwave_push_witness :
  shockwaveTerm (nodeAt 0 3 4) (ageShockwave (clickAt 0%R 0%R))
  = (95 / 100 * fst (shockwaveTerm (nodeAt 0 3 4) (clickAt 0%R 0%R)),
     95 / 100 * snd (shockwaveTerm (nodeAt 0 3 4) (clickAt 0%R 0%R)))%R.
Proof.
  apply (@shockwave_push (nodeAt 0 3 4) (clickAt 0%R 0%R)).
  simpl; lra.
Defined.

(** ** Triggering shockwaves *)

Section Triggering.
Context {T : Type} {num : Number T}.

Lemma updateShockwaves_app (a b : list (Shockwave T)) :
  updateShockwaves (a ++ b) = updateShockwaves a ++ updateShockwaves b.
Proof. unfold updateShockwaves; rewrite map_app, filter_app; reflexivity. Qed.

Lemma updateShockwaves_fresh (sx sy f : T) :
  ltb (dec 1 10) f = true ->
  updateShockwaves [ {| sw_x := sx; sw_y := sy; force := f; age := 0 |} ]
  = [ {| sw_x := sx; sw_y := sy; force := f; age := 1 |} ].
Proof.
  intros Hf; unfold updateShockwaves, alive; simpl; rewrite Hf; reflexivity.
Qed.

Lemma updateShockwaves_length (sws : list (Shockwave T)) :
  List.length (updateShockwaves sws) <= List.length sws.
Proof.
  unfold updateShockwaves.
  eapply Nat.le_trans; [apply filter_length_le | rewrite length_map; auto].
Qed.

Lemma tick_shockwaves_length (c : Component T) :
  List.length (shockwavesOf (tick c)) <= List.length (shockwavesOf c).
Proof.
  unfold shockwavesOf, tick; simpl.
  destruct (step_shockwaves (engine c)) as [-> | ->];
    auto using updateShockwaves_length.
Qed.

End Triggering.

(** X8. Two shockwaves triggered between two ticks (each of a force above
    0.1, edges in range so that the step returns) are both active after
    the next tick, behind the older ones and in the order they were
    triggered, each with age 1. *)
Theorem concurrent_triggers_both_active :
  forall (T : Type) (num : Number T) (c : Component T) (ax ay af bx by' bf : T),
    edgesInRange (physics (engine c)) ->
    ltb (dec 1 10) af = true -> ltb (dec 1 10) bf = true ->
    shockwavesOf (tick (trigger bx by' bf (trigger ax ay af c)))
    = updateShockwaves (shockwavesOf c)
      ++ [ {| sw_x := ax; sw_y := ay; force := af; age := 1 |};
           {| sw_x := bx; sw_y := by'; force := bf; age := 1 |} ].
Proof.
  intros T num c ax ay af bx by' bf Hr Ha Hb.
  rewrite tick_shockwaves by exact Hr.
  change (shockwavesOf (trigger bx by' bf (trigger ax ay af c)))
    with ((shockwavesOf c
           ++ [ {| sw_x := ax; sw_y := ay; force := af; age := 0 |} ])
          ++ [ {| sw_x := bx; sw_y := by'; force := bf; age := 0 |} ]).
  rewrite !updateShockwaves_app, !updateShockwaves_fresh by assumption.
  rewrite <- app_assoc; reflexivity.
Qed.

Lemma concurrent_triggers_both_active_witness :
  shockwavesOf (tick (trigger 9%R 9%R 800%R (trigger 5%R 5%R 500%R (@mount R _))))
  = [ {| sw_x := 5%R; sw_y := 5%R; force := 500%R; age := 1 |};
      {| sw_x := 9%R; sw_y := 9%R; force := 800%R; age := 1 |} ].
Proof.
  apply (@concurrent_triggers_both_active R _ mount).
  - repeat constructor; simpl; lia.
  - apply Rltb_true; unfold dec; simpl; lra.
  - apply Rltb_true; unfold dec; simpl; lra.
Defined.

(** X9. No event adds more than one shockwave, and only a tick or the
    "Reset Network" button removes any: a tick and a reset never add one,
    every other event keeps the active shockwaves, in order, and appends at
    most one. *)
Theorem shockwave_count_per_event :
  forall (T : Type) (num : Number T) (c : Component T) (ev : Event T),
    match ev with
    | Tick | ResetNetwork =>
        List.length (shockwavesOf (fire c ev)) <= List.length (shockwavesOf c)
    | _ =>
        exists tail, shockwavesOf (fire c ev) = shockwavesOf c ++ tail /\
                     List.length tail <= 1
    end.
Proof.
  intros T num c ev; destruct ev; simpl.
  - apply tick_shockwaves_length.
  - exists []; rewrite app_nil_r; auto.
  - exists []; rewrite app_nil_r; auto.
  - unfold handleMouseMove; destruct (draggingNode c) as [dn|].
    + eexists; split.
      * unfold shockwavesOf; simpl.
        destruct (findIndex (v_id dn) 0 (nodes (physics (engine c)))); reflexivity.
      * simpl; apply Nat.le_refl.
    + exists []; rewrite app_nil_r; auto.
  - unfold handleMouseUp; destruct (draggingNode c) as [dn|].
    + eexists; split.
      * reflexivity.
      * simpl; apply Nat.le_refl.
    + exists []; rewrite app_nil_r; auto.
  - unfold handleBackgroundClick; destruct onBackground.
    + eexists; split.
      * reflexivity.
      * simpl; apply Nat.le_refl.
    + exists []; rewrite app_nil_r; auto.
  - unfold resetNetwork, shockwavesOf.
    destruct (resetLoop (nodes (physics (engine c))) INITIAL_NODES) as [ns [|]];
      simpl; lia.
  - exists []; rewrite app_nil_r; auto.
Qed.

(** ** Springs and repulsion over the reals *)

Section SpringExact.
Local Open Scope R_scope.

Lemma hooke_exact (edge : Edge) (ns : list (Node R)) (src tgt : Node R) :
  nth_error ns (source edge) = Some src ->
  nth_error ns (target edge) = Some tgt ->
  calculateHookeAttraction edge ns
  = Some ((x tgt - x src) / distance src tgt * (5 / 100 * (distance src tgt - 120)),
          (y tgt - y src) / distance src tgt * (5 / 100 * (distance src tgt - 120)),
          Rabs (distance src tgt - 120)).
Proof.
  intros Hs Ht; unfold calculateHookeAttraction; rewrite Hs, Ht; reflexivity.
Qed.

Lemma scaled_offset_length (k u v d : R) :
  0 <= d -> d * d = u * u + v * v ->
  R_sqrt.sqrt (k * u * (k * u) + k * v * (k * v)) = Rabs k * d.
Proof.
  intros Hd Hq.
  replace (k * u * (k * u) + k * v * (k * v)) with (Rsqr (k * d))
    by (unfold Rsqr; transitivity (k * k * (d * d)); [ring | rewrite Hq; ring]).
  rewrite sqrt_Rsqr_abs, Rabs_mult, (Rabs_right d); [reflexivity | lra].
Qed.

Definition sumAx (ns : list (Node R)) : R := fold_right (fun n s => ax n + s) 0 ns.
Definition sumAy (ns : list (Node R)) : R := fold_right (fun n s => ay n + s) 0 ns.

Lemma sum_update_addAcc (f : R * R) (ns : list (Node R)) : forall i,
  (i < List.length ns)%nat ->
  sumAx (update i (addAcc f) ns) = sumAx ns + fst f /\
  sumAy (update i (addAcc f) ns) = sumAy ns + snd f.
Proof.
  induction ns as [|n ns IH]; intros [|i] Hi; simpl in *; try lia.
  - split; ring.
  - destruct (IH i ltac:(lia)) as [-> ->]; split; ring.
Qed.

Lemma sum_update_subAcc (f : R * R) (ns : list (Node R)) : forall i,
  (i < List.length ns)%nat ->
  sumAx (update i (subAcc f) ns) = sumAx ns - fst f /\
  sumAy (update i (subAcc f) ns) = sumAy ns - snd f.
Proof.
  induction ns as [|n ns IH]; intros [|i] Hi; simpl in *; try lia.
  - split; ring.
  - destruct (IH i ltac:(lia)) as [-> ->]; split; ring.
Qed.

Lemma hookePhase_sums (es : list Edge) : forall (ns : list (Node R)) tt,
  Forall (edgeInRange (List.length ns)) es ->
  sumAx (fst (hookePhase es ns tt)) = sumAx ns /\
  sumAy (fst (hookePhase es ns tt)) = sumAy ns.
Proof.
  induction es as [|edge es IH]; intros ns tt H; simpl; auto.
  inversion H as [|? ? [Hs Ht] Hes]; subst.
  destruct (@calculateHookeAttraction_some _ _ edge ns (conj Hs Ht))
    as [[[fx fy] tens] E].
  rewrite E; cbv beta iota zeta.
  destruct (IH (update (target edge) (subAcc (fx, fy))
                  (update (source edge) (addAcc (fx, fy)) ns)) (tt + tens)%R)
    as [E1 E2]; [rewrite !update_length; exact Hes|].
  rewrite E1, E2.
  destruct (@sum_update_subAcc (fx, fy)
              (update (source edge) (addAcc (fx, fy)) ns) (target edge))
    as [-> ->]; [rewrite update_length; exact Ht|].
  destruct (@sum_update_addAcc (fx, fy) ns (source edge) Hs) as [-> ->].
  simpl; split; ring.
Qed.

End SpringExact.

(** X10. Over the reals, for an edge whose ends are a positive distance
    [d] apart, the spring force on the source is the offset to the target
    times [0.05 * (d - 120) / d]: it has magnitude [0.05 * |d - 120|],
    pulls the source towards the target when [d > 120], pushes it away
    when [d < 120] and vanishes at the rest length; the tension reported
    is [|d - 120|]. *)
Theorem hooke_law_exact :
  forall (edge : Edge) (ns : list (Node R)) (src tgt : Node R),
    nth_error ns (source edge) = Some src ->
    nth_error ns (target edge) = Some tgt ->
    (0 < distance src tgt)%R ->
    let d := distance src tgt in
    let k := (5 / 100 * (d - 120) / d)%R in
    calculateHookeAttraction edge ns
    = Some ((k * (x tgt - x src))%R, (k * (y tgt - y src))%R, Rabs (d - 120)) /\
    magnitude ((k * (x tgt - x src))%R, (k * (y tgt - y src))%R)
    = (5 / 100 * Rabs (d - 120))%R /\
    ((120 < d)%R -> (0 < k)%R) /\ ((d < 120)%R -> (k < 0)%R) /\
    (d = 120%R -> k = 0%R).
Proof.
  intros edge ns src tgt Hs Ht Hd; cbv zeta.
  rewrite (hooke_exact _ _ Hs Ht).
  assert (Hq : (distance src tgt * distance src tgt
                = (x tgt - x src) * (x tgt - x src)
                  + (y tgt - y src) * (y tgt - y src))%R)
    by (rewrite (distance_sym src tgt), distance_sqr; ring).
  set (d := distance src tgt) in *; clearbody d.
  set (k := (5 / 100 * (d - 120) / d)%R).
  split; [|split; [|split; [|split]]].
  - subst k.
    apply f_equal; apply f_equal2; [apply f_equal2 | reflexivity]; field; lra.
  - unfold magnitude; cbn [fst snd].
    rewrite (@scaled_offset_length k _ _ d); [| lra | exact Hq].
    subst k.
    replace (5 / 100 * (d - 120) / d)%R with (5 / 100 * (d - 120) * / d)%R
      by (field; lra).
    rewrite !Rabs_mult, (Rabs_right (5 / 100)), (Rabs_right (/ d)).
    + field; lra.
    + left; apply Rinv_0_lt_compat; lra.
    + lra.
  - intros H; subst k; apply Rdiv_lt_0_compat; lra.
  - intros H; subst k.
    replace (5 / 100 * (d - 120) / d)%R with (- (5 / 100 * (120 - d) / d))%R
      by (field; lra).
    apply Ropp_lt_gt_0_contravar, Rlt_gt, Rdiv_lt_0_compat; lra.
  - intros H; subst k; rewrite H; field.
Qed.

(** An edge from (3,4) to (0,0): five apart, so compressed. *)
Lemma hooke_law_exact_witness :
  calculateHookeAttraction (mkEdge 0 1) [nodeAt 0 3 4; nodeAt 1 0 0]
  = Some ((5 / 100 * (distance (nodeAt 0 3 4) (nodeAt 1 0 0) - 120)
           / distance (nodeAt 0 3 4) (nodeAt 1 0 0)
           * (x (nodeAt 1 0 0) - x (nodeAt 0 3 4)))%R,
          (5 / 100 * (distance (nodeAt 0 3 4) (nodeAt 1 0 0) - 120)
           / distance (nodeAt 0 3 4) (nodeAt 1 0 0)
           * (y (nodeAt 1 0 0) - y (nodeAt 0 3 4)))%R,
          Rabs (distance (nodeAt 0 3 4) (nodeAt 1 0 0) - 120)).
Proof.
  refine (proj1 (@hooke_law_exact (mkEdge 0 1) [nodeAt 0 3 4; nodeAt 1 0 0]
                   (nodeAt 0 3 4) (nodeAt 1 0 0) eq_refl eq_refl _)).
  rewrite distance_3_4; lra.
Defined.

(** X11. Over the reals, the spring phase of a step (edges in range) adds
    no net acceleration: what it adds to an edge's source it takes from
    its target, so the sums of [ax] and of [ay] over all nodes are what
    they were before the phase. *)
Theorem springs_add_no_net_force :
  forall (es : list Edge) (ns : list (Node R)) (tt : R),
    Forall (edgeInRange (List.length ns)) es ->
    sumAx (fst (hookePhase es ns tt)) = sumAx ns /\
    sumAy (fst (hookePhase es ns tt)) = sumAy ns.
Proof. intros es ns tt H; apply hookePhase_sums, H. Qed.

Lemma springs_add_no_net_force_witness :
  sumAx (fst (hookePhase INITIAL_EDGES (nodesOf (@mount R _)) 0%R))
  = sumAx (nodesOf (@mount R _)).
Proof.
  refine (proj1 (@springs_add_no_net_force INITIAL_EDGES (nodesOf mount) 0%R _)).
  repeat constructor; simpl; lia.
Defined.

(** X12. Over the reals the repulsion between two nodes is opposite in
    direction but weighted by each node's own stress: the term on the first
    times the second's stress factor is minus the term on the second times
    the first's.  With equal stress the two terms are equal and opposite. *)
Theorem repulsion_pair_balance :
  forall a b : Node R,
    let sf n := (1 + stress n * (7 / 10))%R in
    (fst (coulombTerm a b) * sf b = - (fst (coulombTerm b a) * sf a))%R /\
    (snd (coulombTerm a b) * sf b = - (snd (coulombTerm b a) * sf a))%R /\
    (stress a = stress b ->
     coulombTerm a b = (- fst (coulombTerm b a), - snd (coulombTerm b a))%R).
Proof.
  intros a b sf.
  pose proof (distance_nonneg a b) as Hd.
  rewrite (coulombTerm_exact a b), (coulombTerm_exact b a).
  cbv zeta; rewrite (distance_sym b a).
  unfold specRepulsion, COULOMB_CONSTANT, STRESS_THRESHOLD, dec;
    cbn [add sub mul div fromZ Exact.number fst snd].
  rewrite (distance_sym b a); subst sf; cbv beta.
  split; [field; lra | split; [field; lra|]].
  intros ->; f_equal; field; lra.
Qed.

(** ** The published statistics *)

Section Statistics.
Context {T : Type} {num : Number T}.

(** [|distance - SPRING_LENGTH|] of an edge on a node array, zero when an
    end is missing. *)
Definition springTension (ns : list (Node T)) (edge : Edge) : T :=
  match nth_error ns (source edge), nth_error ns (target edge) with
  | Some src, Some tgt => abs (sub (distance src tgt) SPRING_LENGTH)
  | _, _ => zero
  end.

Definition totalKinetic (ns : list (Node T)) : T :=
  fold_left (fun ke n => add ke (kineticTerm n)) ns zero.

Definition totalTension (ns : list (Node T)) (es : list Edge) (tt : T) : T :=
  fold_left (fun t edge => add t (springTension ns edge)) es tt.

Definition entropyOf (ke : T) (count : nat) : T :=
  mul (log (add (div ke (fromZ (Z.of_nat count))) (dec 1 1000))) (fromZ (-1)).

Lemma accOnlyL_nth_error (l l' : list (Node T)) : accOnlyL l l' ->
  forall i, match nth_error l i, nth_error l' i with
            | Some n, Some n' => accOnly n n'
            | None, None => True
            | _, _ => False
            end.
Proof.
  induction 1 as [|n n' l l' Hn _ IH]; intros [|i]; simpl; auto.
  apply IH.
Qed.

Lemma hooke_accOnlyL (l l' : list (Node T)) edge :
  accOnlyL l l' ->
  calculateHookeAttraction edge l' = calculateHookeAttraction edge l.
Proof.
  intros H; unfold calculateHookeAttraction.
  pose proof (accOnlyL_nth_error H (source edge)) as Hs.
  pose proof (accOnlyL_nth_error H (target edge)) as Ht.
  destruct (nth_error l (source edge)), (nth_error l' (source edge));
    try contradiction; auto.
  destruct (nth_error l (target edge)), (nth_error l' (target edge));
    try contradiction; auto.
  rewrite Hs, Ht; reflexivity.
Qed.

Lemma hooke_tension (l : list (Node T)) edge fx fy tens :
  calculateHookeAttraction edge l = Some (fx, fy, tens) ->
  tens = springTension l edge.
Proof.
  unfold calculateHookeAttraction, springTension.
  destruct (nth_error l (source edge)), (nth_error l (target edge));
    try discriminate.
  intros H; inversion H; reflexivity.
Qed.

Lemma hookePhase_tension (es : list Edge) : forall (base ns : list (Node T)) tt ns' t,
  accOnlyL base ns ->
  hookePhase es ns tt = (ns', Some t) ->
  t = totalTension base es tt.
Proof.
  induction es as [|edge es IH]; intros base ns tt ns' t Hacc H; simpl in H.
  - inversion H; reflexivity.
  - destruct (calculateHookeAttraction edge ns) as [[[fx fy] tens]|] eqn:E;
      [|discriminate].
    rewrite (hooke_accOnlyL edge Hacc) in E; apply hooke_tension in E; subst tens.
    apply (IH base) in H; [exact H|].
    repeat apply accOnlyL_update; auto using accOnly_addAcc, accOnly_subAcc.
Qed.

Lemma simulationStep_stats (e : Engine T) :
  edgesInRange (physics e) ->
  let e' := fst (simulationStep e) in
  stats e'
  = {| kineticEnergy := totalKinetic (nodes (physics e'));
       tension := totalTension (nodes (physics e)) (edges (physics e)) zero;
       networkEntropy := entropyOf (totalKinetic (nodes (physics e')))
                                   (List.length (nodes (physics e'))) |}.
Proof.
  intros Hr; destruct (simulationStep_returns e Hr) as [out Hout].
  revert Hout; unfold simulationStep; set (p := physics e).
  pose proof (@coulombPhase_acc _ _ (List.length (map resetAcc (nodes p))) 0
                (nodes p) (map resetAcc (nodes p))) as Hc.
  destruct (coulombPhase _ 0 (map resetAcc (nodes p))) as [ns1 ok].
  simpl in Hc.
  assert (H1 : accOnlyL (nodes p) ns1).
  { apply Hc. apply accOnlyL_map; auto using accOnly_resetAcc, accOnlyL_refl. }
  clear Hc; destruct ok; [|simpl; discriminate].
  pose proof (@hookePhase_tension (edges p) (nodes p) ns1 zero) as Ht.
  destruct (hookePhase (edges p) ns1 zero) as [ns2 [t|]]; [|simpl; discriminate].
  intros _; rewrite (Ht ns2 t H1 eq_refl); reflexivity.
Qed.

End Statistics.

(** X13. When a step returns (edges in range) the statistics it publishes
    are: the kinetic energy [0.5 * mass * (vx^2 + vy^2)] summed over the
    nodes as the step leaves them; the tension [|distance - 120|] summed
    over the edges on the positions the nodes had before the step moved
    them; and [Math.log(kineticEnergy / nodes.length + 0.001) * -1]. *)
Theorem published_statistics :
  forall (T : Type) (num : Number T) (e : Engine T),
    edgesInRange (physics e) ->
    let e' := fst (simulationStep e) in
    kineticEnergy (stats e') = totalKinetic (nodes (physics e')) /\
    tension (stats e')
    = totalTension (nodes (physics e)) (edges (physics e)) zero /\
    networkEntropy (stats e')
    = entropyOf (kineticEnergy (stats e')) (List.length (nodes (physics e'))).
Proof.
  intros T num e Hr e'; subst e'.
  rewrite (simulationStep_stats e Hr); simpl; auto.
Qed.

Section StatisticsWitness.
#[local] Existing Instance JS.reference.

Lemma published_statistics_witness :
  tension (stats (fst (simulationStep (engine mount))))
  = totalTension (nodes (physics (engine mount)))
                 (edges (physics (engine mount))) zero.
Proof.
  refine (proj1 (proj2 (@published_statistics float JS.reference
                          (engine mount) _))).
  unfold edgesInRange; repeat constructor; vm_compute; lia.
Defined.

End StatisticsWitness.

Section StatisticsExact.
Local Open Scope R_scope.

(** A node as every reachable one is: mass between 1 and 1.5, speed
    within the cap. *)
Definition tame (n : Node R) : Prop := 1 <= mass n <= 3 / 2 /\ capped n.

Lemma capped_square (n : Node R) : capped n -> vx n * vx n + vy n * vy n <= 225.
Proof.
  unfold capped, speedOf, MAX_VELOCITY; cbn [add mul sqrt fromZ Exact.number].
  intros H.
  assert (Hq : 0 <= vx n * vx n + vy n * vy n)
    by (apply Rplus_le_le_0_compat; apply Rle_0_sqr).
  destruct (Rle_lt_dec (vx n * vx n + vy n * vy n) 225) as [|Hlt]; auto.
  exfalso.
  assert (Hs : R_sqrt.sqrt (15 * 15)
               < R_sqrt.sqrt (vx n * vx n + vy n * vy n))
    by (apply sqrt_lt_1_alt; lra).
  rewrite sqrt_square in Hs; lra.
Qed.

Lemma kineticTerm_bounds (n : Node R) :
  tame n -> 0 <= kineticTerm n <= 16875 / 100.
Proof.
  intros [Hm Hc]; apply capped_square in Hc.
  assert (Hq : 0 <= vx n * vx n + vy n * vy n)
    by (apply Rplus_le_le_0_compat; apply Rle_0_sqr).
  unfold kineticTerm, dec; cbn [add mul div fromZ Exact.number].
  set (q := vx n * vx n + vy n * vy n) in *.
  split; nra.
Qed.

Lemma totalKinetic_from (ns : list (Node R)) : forall acc,
  Forall tame ns ->
  acc <= fold_left (fun ke n => add ke (kineticTerm n)) ns acc
      <= acc + 16875 / 100 * INR (List.length ns).
Proof.
  induction ns as [|n ns IH]; intros acc H.
  - simpl; lra.
  - inversion H as [|? ? Hn Hns]; subst.
    pose proof (kineticTerm_bounds Hn) as Hk.
    specialize (IH (acc + kineticTerm n) Hns).
    change (List.length (n :: ns)) with (S (List.length ns)); rewrite S_INR.
    cbn [fold_left add Exact.number] in *; lra.
Qed.

Lemma springTension_nonneg (ns : list (Node R)) (edge : Edge) :
  0 <= springTension ns edge.
Proof.
  unfold springTension.
  destruct (nth_error ns (source edge)), (nth_error ns (target edge));
    try (unfold zero; simpl; lra); apply Rabs_pos.
Qed.

Lemma totalTension_nonneg (ns : list (Node R)) (es : list Edge) : forall acc,
  0 <= acc -> 0 <= totalTension ns es acc.
Proof.
  unfold totalTension; induction es as [|edge es IH]; intros acc Hacc;
    [exact Hacc|].
  cbn [fold_left]; apply IH.
  pose proof (springTension_nonneg ns edge).
  cbn [add Exact.number]; lra.
Qed.

Lemma entropy_bounds (ke : R) (count : nat) :
  (0 < count)%nat -> 0 <= ke <= 16875 / 100 * INR count ->
  - ln (168751 / 1000) <= entropyOf ke count <= - ln (1 / 1000).
Proof.
  intros Hc Hke; unfold entropyOf, dec; cbn [add mul div fromZ log Exact.number].
  rewrite <- INR_IZR_INZ.
  assert (Hn : 0 < INR count) by (apply lt_0_INR; exact Hc).
  assert (Hq : 0 <= ke / INR count <= 16875 / 100).
  { split.
    - apply Rmult_le_pos; [lra | left; apply Rinv_0_lt_compat; exact Hn].
    - apply Rmult_le_reg_r with (INR count); [exact Hn|].
      replace (ke / INR count * INR count) with ke by (field; lra); lra. }
  assert (Hlo : ln (1 / 1000) <= ln (ke / INR count + 1 / 1000))
    by (destruct (Req_dec (ke / INR count) 0) as [->|];
        [rewrite Rplus_0_l; lra | left; apply ln_increasing; lra]).
  assert (Hhi : ln (ke / INR count + 1 / 1000) <= ln (168751 / 1000))
    by (destruct (Req_dec (ke / INR count) (16875 / 100)) as [->|];
        [right; f_equal; lra | left; apply ln_increasing; lra]).
  lra.
Qed.

Lemma tame_run (ns : list (InitNode R)) (es : list Edge) (evs : list (Event R)) :
  Forall (fun n => 0 <= in_stress n <= 1) ns ->
  Forall drawsInUnit evs ->
  Forall tame (nodesOf (run (mountWith ns es) evs)).
Proof.
  intros Hns Hevs.
  pose (P := fun s m : R => 0 <= s <= 1 /\ m = 1 + s * (5 / 10)).
  assert (Hm : Forall (holdsOn P) (nodesOf (run (mountWith ns es) evs))).
  { apply (@run_holds R Exact.number P).
    - clear Hns; induction Hevs as [|ev evs Hev _ IH]; constructor; auto.
      destruct ev; simpl in *; auto.
      intros k; subst P; exact_arith; split; [apply Hev | reflexivity].
    - apply mount_holds.
      clear Hevs; induction Hns; constructor; auto.
      subst P; exact_arith; split; [assumption | reflexivity]. }
  assert (Hc : Forall capped (nodesOf (run (mountWith ns es) evs))).
  { apply capped_run; unfold nodesOf; simpl.
    clear; induction ns; simpl; constructor; auto.
    apply capped_at_rest; reflexivity. }
  rewrite Forall_forall in *; intros n Hin; split; [|auto].
  destruct (Hm n Hin) as [Hs Hmass]; rewrite Hmass; lra.
Qed.

End StatisticsExact.

(** X14. Over the reals, with the constructor's stresses and every random
    draw in [0,1] and the edges in range, the statistics published by any
    tick are bounded: the kinetic energy lies between 0 and 168.75 per
    node, the tension is not negative, and (with at least one node) the
    entropy lies between [-ln 168.751] and [ln 1000], the value at rest. *)
Theorem statistics_bounds :
  forall (ns : list (InitNode R)) (es : list Edge) (evs : list (Event R)),
    Forall (fun n => (0 <= in_stress n <= 1)%R) ns ->
    Forall drawsInUnit evs ->
    Forall (edgeInRange (List.length ns)) es ->
    let s := stats (engine (tick (run (mountWith ns es) evs))) in
    (0 <= kineticEnergy s <= 16875 / 100 * INR (List.length ns))%R /\
    (0 <= tension s)%R /\
    (ns <> [] ->
     (- ln (168751 / 1000) <= networkEntropy s <= - ln (1 / 1000))%R).
Proof.
  intros ns es evs Hns Hevs Hes s; subst s.
  set (c := run (mountWith ns es) evs).
  assert (Hr : edgesInRange (physics (engine c))).
  { apply run_edgesInRange; unfold edgesInRange; simpl.
    rewrite length_map; exact Hes. }
  assert (Ht : Forall tame (nodesOf (tick c))).
  { replace (tick c) with (run (mountWith ns es) (evs ++ [Tick]))
      by (unfold c, run; rewrite fold_left_app; reflexivity).
    apply (@tame_run ns es (evs ++ [Tick])); auto.
    apply Forall_app; split; [assumption | repeat constructor]. }
  assert (Hlen : List.length (nodesOf (tick c)) = List.length ns).
  { change (tick c) with (fire c Tick); rewrite fire_length.
    unfold c; rewrite run_length; apply length_map. }
  change (engine (tick c)) with (fst (simulationStep (engine c))).
  rewrite (simulationStep_stats (engine c) Hr); cbn [kineticEnergy tension networkEntropy].
  change (nodes (physics (fst (simulationStep (engine c))))) with (nodesOf (tick c)).
  pose proof (@totalKinetic_from (nodesOf (tick c)) 0%R Ht) as Hk.
  fold (totalKinetic (nodesOf (tick c))) in Hk; rewrite Hlen in *.
  unfold zero in Hk; cbn [fromZ Exact.number] in Hk.
  split; [unfold totalKinetic, zero; cbn [fromZ Exact.number]; lra|].
  split.
  - apply totalTension_nonneg; unfold zero; simpl; lra.
  - intros Hne; apply entropy_bounds.
    + destruct ns; [congruence | simpl; lia].
    + unfold totalKinetic, zero; cbn [fromZ Exact.number]; lra.
Qed.

Lemma statistics_bounds_witness :
  (0 <= kineticEnergy
          (stats (engine (tick (run (mountWith INITIAL_NODES INITIAL_EDGES)
                                    [Tick; MouseUp]))))
     <= 16875 / 100 * INR (List.length (@INITIAL_NODES R _)))%R.
Proof.
  refine (proj1 (@statistics_bounds INITIAL_NODES INITIAL_EDGES
                   [Tick; MouseUp] _ _ _)).
  - repeat constructor; exact_arith; simpl; lra.
  - repeat constructor.
  - repeat constructor; simpl; lia.
Defined.

(** ** Dragging *)

Section Dragging.
Context {T : Type} {num : Number T}.

Lemma findIndex_spec (wanted : nat) (ns : list (Node T)) : forall k,
  match findIndex wanted k ns with
  | Some i =>
      k <= i /\
      (exists n, nth_error ns (i - k) = Some n /\ id n = wanted) /\
      (forall j n, j < i - k -> nth_error ns j = Some n -> id n <> wanted)
  | None => forall n, In n ns -> id n <> wanted
  end.
Proof.
  induction ns as [|a ns IH]; intros k; simpl; [tauto|].
  destruct (Nat.eqb (id a) wanted) eqn:E.
  - apply Nat.eqb_eq in E; rewrite Nat.sub_diag; simpl.
    split; [lia | split; [eauto | intros j n Hj; lia]].
  - apply Nat.eqb_neq in E; specialize (IH (S k)).
    destruct (findIndex wanted (S k) ns) as [i|].
    + destruct IH as (Hk & (n & Hn & Hid) & Hfirst).
      split; [lia | split].
      * exists n; split; [|exact Hid].
        replace (i - k) with (S (i - S k)) by lia; exact Hn.
      * intros [|j] m Hj Hm; simpl in Hm; [congruence|].
        apply (Hfirst j m); [lia | exact Hm].
    + intros n [<- | Hin]; auto.
Qed.

Lemma handleMouseUp_clears (c : Component T) :
  draggingNode (handleMouseUp c) = None.
Proof. unfold handleMouseUp; destruct (draggingNode c) eqn:E; auto. Qed.

Lemma handleMouseMove_idle cx cy l t (c : Component T) :
  draggingNode c = None -> handleMouseMove cx cy l t c = c.
Proof. unfold handleMouseMove; intros ->; reflexivity. Qed.

Lemma handleMouseUp_idle (c : Component T) :
  draggingNode c = None -> handleMouseUp c = c.
Proof. unfold handleMouseUp; intros ->; reflexivity. Qed.

End Dragging.

(** X15. Over the reals: after a node is pressed at pointer position
    (cx, cy) through the view it was drawn with, a move of the pointer to
    (cx', cy') puts the first node with the view's id (and no other) at the
    view's position plus the pointer's displacement minus the container's
    left and top (the press does not subtract the rectangle, the move
    does), with zero velocity, and appends one shockwave of force 500
    there. *)
Theorem drag_moves_node_by_pointer_offset :
  forall (c : Component R) (view : NodeView R) (cx cy cx' cy' l t : R) (i : nat),
    findIndex (v_id view) 0 (nodesOf c) = Some i ->
    let px := (v_x view + (cx' - cx) - l)%R in
    let py := (v_y view + (cy' - cy) - t)%R in
    let c' := handleMouseMove cx' cy' l t (handleNodeMouseDown cx cy view c) in
    nodesOf c' = update i (pinNode px py) (nodesOf c) /\
    (exists n, nth_error (nodesOf c) i = Some n /\ id n = v_id view /\
               nth_error (nodesOf c') i = Some (pinNode px py n)) /\
    (forall j n, j < i -> nth_error (nodesOf c) j = Some n -> id n <> v_id view) /\
    shockwavesOf c'
    = shockwavesOf c ++ [ {| sw_x := px; sw_y := py; force := 500%R; age := 0 |} ].
Proof.
  intros c view cx cy cx' cy' l t i Hi px py c'.
  assert (Ex : (cx' - l - (cx - v_x view))%R = px) by (subst px; ring).
  assert (Ey : (cy' - t - (cy - v_y view))%R = py) by (subst py; ring).
  assert (Hn : nodesOf c' = update i (pinNode px py) (nodesOf c)).
  { subst c'; unfold handleMouseMove, handleNodeMouseDown, nodesOf in *.
    cbn [draggingNode dragOffset engine fst snd sub Exact.number].
    rewrite Hi, Ex, Ey; reflexivity. }
  pose proof (findIndex_spec (v_id view) (nodesOf c) 0) as Hs.
  rewrite Hi, Nat.sub_0_r in Hs; destruct Hs as (_ & (n & Hnth & Hid) & Hfirst).
  split; [exact Hn | split; [|split]].
  - exists n; repeat split; auto.
    rewrite Hn; clear - Hnth; revert i Hnth.
    induction (nodesOf c) as [|a ns IH]; intros [|i] H; simpl in *;
      try discriminate; [congruence | auto].
  - exact Hfirst.
  - subst c'; unfold handleMouseMove, handleNodeMouseDown, shockwavesOf, nodesOf in *.
    cbn [draggingNode dragOffset engine fst snd sub fromZ Exact.number].
    rewrite Ex, Ey.
    destruct (findIndex (v_id view) 0 (nodes (physics (engine c)))); reflexivity.
Qed.

Lemma drag_moves_node_by_pointer_offset_witness :
  nodesOf (handleMouseMove 450%R 160%R 10%R 20%R
             (handleNodeMouseDown 400%R 100%R
                {| v_id := 0; v_x := 400%R; v_y := 100%R; v_stress := (2 / 10)%R;
                   v_type := SUPPLIER; v_label := "Raw Materials S1";
                   v_vx := 0%R; v_vy := 0%R |} (@mount R _)))
  = update 0 (pinNode (400 + (450 - 400) - 10)%R (100 + (160 - 100) - 20)%R)
           (nodesOf (@mount R _)).
Proof.
  apply (@drag_moves_node_by_pointer_offset mount
           {| v_id := 0; v_x := 400%R; v_y := 100%R; v_stress := (2 / 10)%R;
              v_type := SUPPLIER; v_label := "Raw Materials S1";
              v_vx := 0%R; v_vy := 0%R |} 400%R 100%R 450%R 160%R 10%R 20%R 0).
  reflexivity.
Defined.

(** X16. A release ends the drag: releasing twice is releasing once, and
    after a release pointer moves change nothing (no node is moved, no
    shockwave is triggered) until a node is pressed again; ticks in between
    do not bring the drag back. *)
Theorem release_ends_drag :
  forall (T : Type) (num : Number T) (c : Component T) (cx cy l t : T),
    handleMouseUp (handleMouseUp c) = handleMouseUp c /\
    handleMouseMove cx cy l t (handleMouseUp c) = handleMouseUp c /\
    handleMouseMove cx cy l t (tick (handleMouseUp c)) = tick (handleMouseUp c).
Proof.
  intros T num c cx cy l t.
  split; [apply handleMouseUp_idle, handleMouseUp_clears|].
  split; apply handleMouseMove_idle; [|rewrite tick_keeps_snapshot];
    apply handleMouseUp_clears.
Qed.

(** X17. When the dragged view's id is the id of no node
    ([findIndex] gives -1), a pointer move leaves every node as it is, yet
    still triggers its shockwave of force 500 at the pointer's position. *)
Theorem drag_of_unknown_node :
  forall (T : Type) (num : Number T) (c : Component T) (dn : NodeView T)
         (cx cy l t : T),
    draggingNode c = Some dn ->
    (forall n, In n (nodesOf c) -> id n <> v_id dn) ->
    let c' := handleMouseMove cx cy l t c in
    nodesOf c' = nodesOf c /\
    shockwavesOf c'
    = shockwavesOf c
      ++ [ {| sw_x := sub (sub cx l) (fst (dragOffset c));
              sw_y := sub (sub cy t) (snd (dragOffset c));
              force := fromZ 500; age := 0 |} ].
Proof.
  intros T num c dn cx cy l t Hd Hid c'; subst c'.
  pose proof (findIndex_spec (v_id dn) (nodesOf c) 0) as Hs.
  unfold handleMouseMove, nodesOf, shockwavesOf in *; rewrite Hd.
  destruct (findIndex (v_id dn) 0 (nodes (physics (engine c)))) as [i|].
  - destruct Hs as (_ & (n & Hn & Hn') & _).
    exfalso; apply (Hid n); [eapply nth_error_In; eauto | exact Hn'].
  - simpl; auto.
Qed.

Section UnknownNodeWitness.
#[local] Existing Instance JS.reference.

Definition strayView : NodeView float :=
  {| v_id := 42; v_x := 10; v_y := 10; v_stress := 0; v_type := RETAILER;
     v_label := "stray"; v_vx := 0; v_vy := 0 |}%float.

Lemma drag_of_unknown_node_witness :
  nodesOf (handleMouseMove 30 40 0 0 (handleNodeMouseDown 10 10 strayView mount))%float
  = nodesOf mount.
Proof.
  apply (@drag_of_unknown_node float _
           (handleNodeMouseDown 10 10 strayView mount)%float strayView).
  - reflexivity.
  - intros n Hin; simpl in Hin.
    repeat (destruct Hin as [<- | Hin]; [simpl; discriminate|]); contradiction.
Defined.

End UnknownNodeWitness.

(** ** Drawing the edges *)

Section Rendering.
Context {T : Type} {num : Number T}.

(** [memoizedNodes.find(n => n.id === wanted)] *)
Definition findView (wanted : nat) (views : list (NodeView T)) : option (NodeView T) :=
  find (fun v => Nat.eqb (v_id v) wanted) views.

(** The two ends an edge is drawn between; [None] where the component
    returns [null] because an end was not found. *)
Definition renderedEdge (views : list (NodeView T)) (edge : Edge)
  : option (NodeView T * NodeView T) :=
  match findView (source edge) views, findView (target edge) views with
  | Some s, Some t => Some (s, t)
  | _, _ => None
  end.

Lemma findView_by_index (views : list (NodeView T)) : forall k i,
  map (@v_id T) views = seq k (List.length views) ->
  i < List.length views ->
  findView (k + i) views = nth_error views i.
Proof.
  induction views as [|v views IH]; intros k i Hids Hi; simpl in Hi; [lia|].
  cbn [map List.length seq] in Hids; injection Hids as Hv Hrest.
  unfold findView in *; cbn [find].
  destruct i as [|i].
  - rewrite Nat.add_0_r, Hv, Nat.eqb_refl; reflexivity.
  - replace (v_id v =? k + S i) with false
      by (symmetry; apply Nat.eqb_neq; lia).
    replace (k + S i) with (S k + i) by lia.
    cbn [nth_error]; apply IH; [exact Hrest | lia].
Qed.

Lemma randomizeLoop_ids random (ns : list (Node T)) : forall k,
  map (@id T) (randomizeLoop random k ns) = map (@id T) ns.
Proof. induction ns; intros k; simpl; f_equal; auto. Qed.

Lemma static_ids (l l' : list (Node T)) :
  map staticPart l' = map staticPart l -> map (@id T) l' = map (@id T) l.
Proof.
  intros H.
  apply (f_equal (map (fun p : nat * NodeType * T * T * string =>
                         fst (fst (fst (fst p)))))) in H.
  rewrite !map_map in H; exact H.
Qed.

Lemma fire_ids (c : Component T) (ev : Event T) :
  map (@id T) (nodesOf (fire c ev)) = map (@id T) (nodesOf c).
Proof.
  destruct (isRandomize ev) eqn:E.
  - destruct ev; try discriminate; unfold nodesOf; simpl.
    apply randomizeLoop_ids.
  - apply static_ids, fire_static, E.
Qed.

Lemma run_ids (evs : list (Event T)) : forall c : Component T,
  map (@id T) (nodesOf (run c evs)) = map (@id T) (nodesOf c).
Proof.
  induction evs as [|ev evs IH]; intros c; [reflexivity|].
  rewrite run_cons, IH; apply fire_ids.
Qed.

Lemma getNodes_ids (e : Engine T) :
  map (@v_id T) (getNodes e) = map (@id T) (nodes (physics e)).
Proof. unfold getNodes; rewrite map_map; reflexivity. Qed.

End Rendering.

(** X18. The engine addresses the ends of an edge by array index, the
    drawing code by node id.  When the nodes given to the hook carry their
    array indices as ids (as [INITIAL_NODES] do) and the edges are in
    range, then in every state the component reaches the edges drawn are
    the edges given, every one of them is drawn (none is skipped for a
    missing end), and it is drawn between the views of the two nodes the
    engine connects. *)
Theorem edges_drawn_between_simulated_ends :
  forall (T : Type) (num : Number T) (ns : list (InitNode T)) (es : list Edge)
         (evs : list (Event T)) (edge : Edge),
    map (@in_id T) ns = seq 0 (List.length ns) ->
    Forall (edgeInRange (List.length ns)) es ->
    In edge es ->
    let e := engine (run (mountWith ns es) evs) in
    getEdges e = es /\
    exists s t,
      nth_error (getNodes e) (source edge) = Some s /\
      nth_error (getNodes e) (target edge) = Some t /\
      renderedEdge (getNodes e) edge = Some (s, t).
Proof.
  intros T num ns es evs edge Hids Hes Hin e.
  assert (Hlen : List.length (getNodes e) = List.length ns).
  { unfold getNodes; rewrite length_map.
    change (nodes (physics e)) with (nodesOf (run (mountWith ns es) evs)).
    rewrite run_length; apply length_map. }
  assert (Hv : map (@v_id T) (getNodes e) = seq 0 (List.length (getNodes e))).
  { rewrite Hlen, getNodes_ids.
    change (nodes (physics e)) with (nodesOf (run (mountWith ns es) evs)).
    rewrite run_ids; unfold nodesOf; cbn [mountWith engine usePhysicsEngine
      physics initPhysics nodes].
    rewrite map_map; exact Hids. }
  split; [apply run_edges|].
  rewrite Forall_forall in Hes; destruct (Hes edge Hin) as [Hs Ht].
  rewrite <- Hlen in Hs, Ht.
  pose proof (findView_by_index (getNodes e) 0 Hv Hs) as Fs.
  pose proof (findView_by_index (getNodes e) 0 Hv Ht) as Ft.
  cbn [Nat.add] in Fs, Ft.
  destruct (nth_error (getNodes e) (source edge)) as [s|] eqn:Es;
    [|apply nth_error_None in Es; lia].
  destruct (nth_error (getNodes e) (target edge)) as [t|] eqn:Et;
    [|apply nth_error_None in Et; lia].
  exists s, t; unfold renderedEdge; rewrite Fs, Ft; auto.
Qed.

Lemma edges_drawn_between_simulated_ends_witness :
  getEdges (engine (run (mountWith (@INITIAL_NODES R _) INITIAL_EDGES)
                        [Tick; RandomizeStress (fun _ => 1%R)]))
  = INITIAL_EDGES.
Proof.
  refine (proj1 (@edges_drawn_between_simulated_ends R _ INITIAL_NODES
                   INITIAL_EDGES [Tick; RandomizeStress (fun _ => 1%R)]
                   (mkEdge 2 5) eq_refl _ _)).
  - repeat constructor; simpl; lia.
  - simpl; tauto.
Defined.

(** ** The animation loop *)

(** [a >= b] of the host: on binary64 it is false when an operand is NaN. *)
Class GreaterEq (T : Type) := numGeb : T -> T -> bool.

#[global] Instance GreaterEq_float : GreaterEq float :=
  fun a b => PrimFloat.leb b a.

#[global] Instance GreaterEq_R : GreaterEq R :=
  fun a b => if Rle_dec b a then true else false.

(** The variables of the effect that runs the loop: [lastTime], whether a
    call of [animate] is requested from [requestAnimationFrame], and the
    engine whose [physicsState] the loop steps. *)
Record Loop (T : Type) := {
  lastTime : T;
  pending : bool;
  loopEngine : Engine T
}.
Arguments lastTime {T} _.
Arguments pending {T} _.
Arguments loopEngine {T} _.

Section AnimationLoop.
Context {T : Type} {num : Number T} {cmp : GreaterEq T}.
Local Open Scope num_scope.

(** [let lastTime = performance.now(); animationId =
    requestAnimationFrame(animate)] *)
Definition startLoop (now : T) (e : Engine T) : Loop T :=
  {| lastTime := now; pending := true; loopEngine := e |}.

(** Whether a call of [animate(currentTime)] reaches [simulationStep()]. *)
Definition stepsAt (currentTime : T) (l : Loop T) : bool :=
  pending l && running (physics (loopEngine l))
  && numGeb (currentTime - lastTime l) (fromZ 16).

(** One frame: the browser calls [animate(currentTime)] if it was
    requested.  A step that throws leaves [animate] before the next
    request is made. *)
Definition animate (currentTime : T) (l : Loop T) : Loop T :=
  if negb (pending l) then l
  else if negb (running (physics (loopEngine l))) then
    {| lastTime := lastTime l; pending := false; loopEngine := loopEngine l |}
  else
    let deltaTime := currentTime - lastTime l in
    if numGeb deltaTime (fromZ 16) then
      match simulationStep (loopEngine l) with
      | (e', Some _) =>
          {| lastTime := currentTime; pending := true; loopEngine := e' |}
      | (e', None) =>
          {| lastTime := currentTime; pending := false; loopEngine := e' |}
      end
    else l.

Definition frames (ts : list T) (l : Loop T) : Loop T :=
  fold_left (fun l t => animate t l) ts l.

(** The number of frames of [ts] in which the step is called. *)
Fixpoint stepCount (ts : list T) (l : Loop T) : nat :=
  match ts with
  | [] => 0
  | t :: ts' => (if stepsAt t l then 1 else 0) + stepCount ts' (animate t l)
  end.

Lemma animate_engine (t : T) (l : Loop T) :
  loopEngine (animate t l)
  = if stepsAt t l then fst (simulationStep (loopEngine l)) else loopEngine l.
Proof.
  unfold animate, stepsAt.
  destruct (pending l), (running (physics (loopEngine l))); simpl; auto.
  destruct (numGeb _ _); auto.
  destruct (simulationStep (loopEngine l)) as [e' [out|]]; reflexivity.
Qed.

Lemma animate_not_pending (t : T) (l : Loop T) :
  pending l = false -> animate t l = l.
Proof. unfold animate; intros ->; reflexivity. Qed.

Lemma frames_not_pending (ts : list T) : forall l : Loop T,
  pending l = false -> frames ts l = l.
Proof.
  induction ts as [|t ts IH]; intros l H; [reflexivity|].
  unfold frames in *; cbn [fold_left].
  rewrite (animate_not_pending t l H); apply IH, H.
Qed.

Lemma step_edgesInRange (e : Engine T) :
  edgesInRange (physics e) -> edgesInRange (physics (fst (simulationStep e))).
Proof.
  unfold edgesInRange; intros H.
  destruct (step_rest e) as (-> & _).
  pose proof (step_static e) as Hs.
  apply (f_equal (@List.length _)) in Hs; rewrite !length_map in Hs.
  rewrite Hs; exact H.
Qed.

(** What the loop needs to go on: a request is pending, the running flag
    is set and every edge names two nodes. *)
Definition looping (l : Loop T) : Prop :=
  pending l = true /\ running (physics (loopEngine l)) = true /\
  edgesInRange (physics (loopEngine l)).

Lemma animate_alive (t : T) (l : Loop T) : looping l -> looping (animate t l).
Proof.
  intros (Hp & Hr & He); unfold animate; rewrite Hp, Hr; simpl.
  destruct (numGeb _ _); [|repeat split; assumption].
  destruct (simulationStep_returns (loopEngine l) He) as [out Hout].
  pose proof (step_edgesInRange (loopEngine l) He) as He'.
  destruct (step_rest (loopEngine l)) as (_ & Hr' & _).
  destruct (simulationStep (loopEngine l)) as [e' [o|]];
    cbn [fst snd] in *; [|discriminate].
  split; [reflexivity | split; [|exact He']].
  cbn [loopEngine]; rewrite Hr'; exact Hr.
Qed.

Lemma frames_alive (ts : list T) : forall l : Loop T,
  looping l -> looping (frames ts l).
Proof.
  induction ts as [|t ts IH]; intros l H; [exact H|].
  unfold frames in *; cbn [fold_left]; apply IH, animate_alive, H.
Qed.

End AnimationLoop.

Section AnimationPace.
Local Open Scope R_scope.

Lemma numGeb_R_true (a b : R) : numGeb a b = true -> b <= a.
Proof.
  unfold numGeb, GreaterEq_R; destruct (Rle_dec b a); [auto | discriminate].
Qed.

Lemma animate_lastTime (t : R) (l : Loop R) :
  (if stepsAt t l then 16 else 0) <= lastTime (animate t l) - lastTime l.
Proof.
  unfold animate, stepsAt.
  destruct (pending l), (running (physics (loopEngine l))); simpl; try lra.
  destruct (numGeb _ _) eqn:E; [|lra].
  apply numGeb_R_true in E; cbn [sub fromZ Exact.number] in E.
  destruct (simulationStep (loopEngine l)) as [e' [out|]]; simpl; lra.
Qed.

End AnimationPace.

(** X19. Over the reals, whatever timestamps the browser passes to
    [animate] (they need not even increase): the engine after the frames
    is the engine after as many calls of [simulationStep] as there were
    frames reaching it, and sixteen milliseconds times that number is at
    most the advance of [lastTime]; the steps are at least 16 ms apart on
    the frame clock, whatever the refresh rate. *)
Theorem animation_paces_steps :
  forall (ts : list R) (l : Loop R),
    loopEngine (frames ts l)
    = Nat.iter (stepCount ts l) (fun e => fst (simulationStep e)) (loopEngine l) /\
    (16 * INR (stepCount ts l) <= lastTime (frames ts l) - lastTime l)%R.
Proof.
  induction ts as [|t ts IH]; intros l.
  - simpl; split; [reflexivity | lra].
  - destruct (IH (animate t l)) as [He Ht].
    pose proof (animate_lastTime t l) as Hl.
    pose proof (animate_engine t l) as Ha.
    change (frames (t :: ts) l) with (frames ts (animate t l)).
    cbn [stepCount]; rewrite He, Ha.
    destruct (stepsAt t l).
    + change (1 + stepCount ts (animate t l))%nat
        with (S (stepCount ts (animate t l))).
      rewrite Nat.iter_succ_r, S_INR; split; [reflexivity | lra].
    + cbn [Nat.add]; split; [reflexivity | lra].
Qed.

(** X20. When the step a frame runs throws (an edge names a missing
    node), [animate] is left before it requests the next frame: the loop
    is over, and no later frame changes the engine, which stays as the
    failed step left it. *)
Theorem loop_stops_after_throw :
  forall (T : Type) (num : Number T) (cmp : GreaterEq T)
         (l : Loop T) (t : T) (ts : list T),
    stepsAt t l = true ->
    snd (simulationStep (loopEngine l)) = None ->
    pending (frames ts (animate t l)) = false /\
    loopEngine (frames ts (animate t l)) = fst (simulationStep (loopEngine l)) /\
    stepCount ts (animate t l) = 0.
Proof.
  intros T num cmp l t ts Hs Hn.
  assert (Hp : pending (animate t l) = false).
  { revert Hs; unfold stepsAt, animate.
    destruct (pending l), (running (physics (loopEngine l))); simpl;
      try discriminate.
    intros ->; destruct (simulationStep (loopEngine l)) as [e' [out|]];
      [discriminate | reflexivity]. }
  rewrite (frames_not_pending ts _ Hp), animate_engine, Hs.
  split; [exact Hp | split; [reflexivity|]].
  generalize dependent (animate t l); clear; intros l' Hp.
  induction ts as [|t' ts IH]; [reflexivity|].
  cbn [stepCount]; rewrite (animate_not_pending t' l' Hp), IH.
  unfold stepsAt; rewrite Hp; reflexivity.
Qed.

Section LoopWitness.
#[local] Existing Instance JS.reference.

Lemma loop_stops_after_throw_witness :
  pending (frames [40; 60; 80]%float
             (animate 20%float (startLoop 0%float (engine dangling)))) = false.
Proof.
  refine (proj1 (@loop_stops_after_throw float JS.reference GreaterEq_float
                   (startLoop 0%float (engine dangling)) 20%float
                   [40; 60; 80]%float _ _)); vm_compute; reflexivity.
Defined.

End LoopWitness.

(** X21. While every edge names two nodes the loop never stops by itself:
    after any frames a request is still pending, and the running flag,
    which nothing clears, is still set. *)
Theorem loop_keeps_running :
  forall (T : Type) (num : Number T) (cmp : GreaterEq T)
         (now : T) (e : Engine T) (ts : list T),
    running (physics e) = true ->
    edgesInRange (physics e) ->
    pending (frames ts (startLoop now e)) = true /\
    running (physics (loopEngine (frames ts (startLoop now e)))) = true.
Proof.
  intros T num cmp now e ts Hr He.
  destruct (@frames_alive T num cmp ts (startLoop now e)) as (Hp & Hr' & _);
    [repeat split; assumption | auto].
Qed.

Lemma loop_keeps_running_witness :
  pending (frames [0; 17; 20; 40]%R
             (startLoop 5%R (engine (@mount R _)))) = true.
Proof.
  refine (proj1 (@loop_keeps_running R _ GreaterEq_R 5%R (engine mount)
                   [0; 17; 20; 40]%R eq_refl _)).
  unfold edgesInRange; repeat constructor; simpl; lia.
Defined.

(** ** The buttons and a plain click *)

Section Buttons.
Context {T : Type} {num : Number T}.
Local Open Scope num_scope.

Lemma randomizeLoop_nth random (ns : list (Node T)) : forall k i n,
  nth_error ns i = Some n ->
  nth_error (randomizeLoop random k ns) i
  = Some (set_stress_mass n (random (k + i)%nat)
            (one + random (k + i)%nat * dec 5 10)).
Proof.
  induction ns as [|a ns IH]; intros k [|i] n H; simpl in *; try discriminate.
  - rewrite Nat.add_0_r; congruence.
  - replace (k + S i)%nat with (S k + i)%nat by lia; apply IH, H.
Qed.

End Buttons.

(** X22. "Randomize Stress" calls [Math.random()] once per node, in array
    order: the node at index [i] gets the [i]-th draw as its stress and
    [1 + draw * 0.5] as its mass; its position, velocity, acceleration,
    id, type and label stay, and so do the shockwaves. *)
Theorem randomize_draws_in_node_order :
  forall (T : Type) (num : Number T) (random : nat -> T) (c : Component T)
         (i : nat) (n : Node T),
    nth_error (nodesOf c) i = Some n ->
    nth_error (nodesOf (randomizeStress random c)) i
    = Some {| id := id n; type := type n; x := x n; y := y n;
              stress := random i; label := label n;
              vx := vx n; vy := vy n; ax := ax n; ay := ay n;
              mass := add one (mul (random i) (dec 5 10)) |} /\
    shockwavesOf (randomizeStress random c) = shockwavesOf c.
Proof.
  intros T num random c i n H; split; [|reflexivity].
  unfold randomizeStress, nodesOf in *; simpl.
  rewrite (randomizeLoop_nth random _ 0 i H); reflexivity.
Qed.

Section RandomizeWitness.
#[local] Existing Instance JS.reference.

Lemma randomize_draws_in_node_order_witness :
  shockwavesOf (randomizeStress (fun k => dec (Z.of_nat k) 16) dangling)
  = shockwavesOf dangling.
Proof.
  refine (proj2 (@randomize_draws_in_node_order float JS.reference
                   (fun k => dec (Z.of_nat k) 16) dangling 0
                   (initNode (mkInit 0 SUPPLIER 100 100 2 "A")) _)).
  reflexivity.
Defined.

End RandomizeWitness.

(** X23. Pressing and releasing a node without moving the pointer is not
    only a selection: the node is selected, no node moves, and the release
    triggers its shockwave of force 2000 at the position the node was drawn
    at; the click that follows, which is not on the background, changes
    nothing more. *)
Theorem click_on_node_triggers_shockwave :
  forall (T : Type) (num : Number T) (c : Component T) (view : NodeView T)
         (cx cy cx' cy' l t : T),
    let c' := handleBackgroundClick false cx' cy' l t
                (handleMouseUp (handleNodeMouseDown cx cy view c)) in
    nodesOf c' = nodesOf c /\
    shockwavesOf c'
    = shockwavesOf c
      ++ [ {| sw_x := v_x view; sw_y := v_y view; force := fromZ 2000; age := 0 |} ] /\
    selectedNode c' = Some view /\
    draggingNode c' = None.
Proof.
  intros; subst c'; unfold handleBackgroundClick, handleMouseUp,
    handleNodeMouseDown, nodesOf, shockwavesOf; simpl; auto.
Qed.

(** ** What is drawn of a node and of an edge *)

Section Drawing.
Context {T : Type} {num : Number T}.
Local Open Scope num_scope.

(** The object [getNodes] makes of a node. *)
Definition viewOf (n : Node T) : NodeView T :=
  {| v_id := id n; v_x := x n; v_y := y n; v_stress := stress n;
     v_type := type n; v_label := label n; v_vx := vx n; v_vy := vy n |}.

Lemma getNodes_viewOf (e : Engine T) : getNodes e = map viewOf (nodes (physics e)).
Proof. reflexivity. Qed.

(** [Math.abs(source.x - target.x) > SPRING_LENGTH * 1.5] *)
Definition isTensionHigh (source target : NodeView T) : bool :=
  abs (v_x source - v_x target) >? SPRING_LENGTH * dec 15 10.

(** The velocity indicator: the end of the line drawn from the node's
    centre, when it is drawn. *)
Definition velocityIndicator (node : NodeView T) : option (T * T) :=
  if (abs (v_vx node) >? dec 5 10) || (abs (v_vy node) >? dec 5 10)
  then Some (v_vx node * fromZ 3, v_vy node * fromZ 3)
  else None.

End Drawing.

Section DrawingExact.
Local Open Scope R_scope.

Lemma Rltb_inv a b : Exact.Rltb a b = true -> a < b.
Proof. unfold Exact.Rltb; destruct (Rlt_dec a b); [auto | discriminate]. Qed.

Lemma isTensionHigh_exact (n1 n2 : Node R) :
  isTensionHigh (viewOf n1) (viewOf n2) = true <-> 180 < Rabs (x n1 - x n2).
Proof.
  unfold isTensionHigh, SPRING_LENGTH, dec;
    cbn [viewOf v_x abs sub mul div ltb fromZ Exact.number].
  replace (120 * (15 / 10)) with 180 by lra.
  split; [apply Rltb_inv | apply Rltb_true].
Qed.

Lemma horizontal_le_distance (n1 n2 : Node R) :
  Rabs (x n1 - x n2) <= distance n1 n2.
Proof.
  unfold distance; cbn [add sub mul sqrt Exact.number]; cbv zeta.
  rewrite <- (sqrt_Rsqr_abs (x n1 - x n2)).
  apply sqrt_le_1_alt; unfold Rsqr.
  assert (0 <= (y n2 - y n1) * (y n2 - y n1)) by apply Rle_0_sqr.
  nra.
Qed.

Lemma scaled_length (u v : R) :
  R_sqrt.sqrt (u * 3 * (u * 3) + v * 3 * (v * 3)) = 3 * R_sqrt.sqrt (u * u + v * v).
Proof.
  replace (u * 3 * (u * 3) + v * 3 * (v * 3)) with (3 * 3 * (u * u + v * v)) by ring.
  rewrite sqrt_mult_alt by lra.
  rewrite sqrt_square by lra; reflexivity.
Qed.

End DrawingExact.

(** X24. Over the reals, an edge is drawn highlighted only when its ends
    are more than 180 (one and a half rest lengths) apart, but the test
    looks at the horizontal separation alone: an edge between two nodes in
    the same column is never highlighted, however far apart they are. *)
Theorem tension_highlight_is_horizontal :
  forall (n1 n2 : Node R) (py : R),
    (isTensionHigh (viewOf n1) (viewOf n2) = true -> (180 < distance n1 n2)%R) /\
    isTensionHigh (viewOf (set_pos n1 (x n2) py)) (viewOf n2) = false.
Proof.
  intros n1 n2 py; split.
  - intros H; apply isTensionHigh_exact in H.
    pose proof (horizontal_le_distance n1 n2); lra.
  - destruct (isTensionHigh (viewOf (set_pos n1 (x n2) py)) (viewOf n2)) eqn:E;
      [|reflexivity].
    apply isTensionHigh_exact in E; cbn [set_pos x] in E.
    rewrite Rminus_diag, Rabs_R0 in E; lra.
Qed.

Lemma tension_highlight_is_horizontal_witness :
  (180 < distance (nodeAt 0 400 0) (nodeAt 1 0 100))%R.
Proof.
  refine (proj1 (@tension_highlight_is_horizontal (nodeAt 0 400 0)
                   (nodeAt 1 0 100) 0%R) _).
  apply isTensionHigh_exact; unfold nodeAt; simpl.
  rewrite Rabs_right; lra.
Defined.

(** X25. Over the reals, in every state the component reaches, the
    velocity indicator of a node, when it is drawn, is the velocity scaled
    by three and at most 45 long. *)
Theorem velocity_indicator_bounded :
  forall (ns : list (InitNode R)) (es : list Edge) (evs : list (Event R))
         (view : NodeView R) (a b : R),
    In view (getNodes (engine (run (mountWith ns es) evs))) ->
    velocityIndicator view = Some (a, b) ->
    (a = v_vx view * 3 /\ b = v_vy view * 3 /\
     R_sqrt.sqrt (a * a + b * b) <= 45)%R.
Proof.
  intros ns es evs view a b Hin Hv.
  assert (Hc : Forall capped (nodesOf (run (mountWith ns es) evs))).
  { apply capped_run; unfold nodesOf; simpl.
    clear; induction ns; simpl; constructor; auto.
    apply capped_at_rest; reflexivity. }
  rewrite getNodes_viewOf in Hin; apply in_map_iff in Hin.
  destruct Hin as (n & <- & Hn).
  rewrite Forall_forall in Hc; specialize (Hc n Hn).
  unfold velocityIndicator in Hv.
  destruct (_ || _); [|discriminate].
  cbn [viewOf v_vx v_vy mul fromZ Exact.number] in *.
  injection Hv as <- <-.
  split; [reflexivity | split; [reflexivity|]].
  rewrite scaled_length.
  unfold capped, speedOf, MAX_VELOCITY in Hc;
    cbn [add mul sqrt fromZ Exact.number] in Hc; lra.
Qed.

Section IndicatorWitness.
Local Open Scope R_scope.

(** One node far to the left of the viewport, about to be pulled back. *)
Definition runaway : Component R :=
  mountWith [ mkInit 0 SUPPLIER (-1950) 350 0 "n" ] [].

Definition pulled : Node R :=
  set_acc (initNode (mkInit 0 SUPPLIER (-1950) 350 0 "n")) 200 0.

Lemma runaway_tick : nodesOf (tick runaway) = [ integrateSpec pulled ].
Proof.
  unfold nodesOf, tick, runaway, mountWith, usePhysicsEngine, simulationStep.
  cbn [engine physics nodes edges shockwaves width height initPhysics map
       List.length coulombPhase calculateCoulombRepulsion nth_error coulombLoop
       Nat.eqb update hookePhase set_engine fst snd].
  unfold integratePhase, shockwavePhase, boundaryPhase.
  cbn [map fst snd physics set_stats set_physics set_shockwaves set_nodes nodes].
  rewrite calculateBoundaryForces_axes.
  unfold applyShockwaves; cbn [fold_left].
  rewrite integrate_is_spec; do 2 f_equal.
  unfold pulled, addAcc, resetAcc, set_acc, initNode, mkInit, zero;
    cbn [id type x y stress label vx vy ax ay mass fst snd add fromZ Exact.number
         in_id in_type in_x in_y in_stress in_label].
  assert (Hx : axisForce 1000 (IZR (-1950)) = 200)
    by (unfold axisForce; rewrite Rltb_true, Rltb_false by lra; lra).
  assert (Hy : axisForce 700 350 = 0)
    by (unfold axisForce; rewrite !Rltb_false by lra; lra).
  rewrite Hx, Hy; f_equal; lra.
Qed.

Lemma pulled_velocity :
  vx (integrateSpec pulled) = 2944 / 1000 /\ vy (integrateSpec pulled) = 0.
Proof.
  unfold integrateSpec, advance; cbn [set_pos vx vy].
  set (m := dampVelocity (accelerate pulled)).
  assert (Hx : vx m = 2944 / 1000)
    by (unfold m, dampVelocity, accelerate, pulled, TIME_STEP, DAMPING, dec, zero;
        simpl; lra).
  assert (Hy : vy m = 0)
    by (unfold m, dampVelocity, accelerate, pulled, TIME_STEP, DAMPING, dec, zero;
        simpl; lra).
  assert (Hs : speedOf m = 2944 / 1000).
  { unfold speedOf; cbn [add mul sqrt Exact.number]; rewrite Hx, Hy.
    replace (2944 / 1000 * (2944 / 1000) + 0 * 0)
      with (2944 / 1000 * (2944 / 1000)) by lra.
    apply sqrt_square; lra. }
  destruct (clampVelocity_exact m) as [_ Hunder].
  rewrite Hunder by (rewrite Hs; unfold MAX_VELOCITY; simpl; lra).
  auto.
Qed.

Lemma velocity_indicator_bounded_witness :
  R_sqrt.sqrt (8832 / 1000 * (8832 / 1000) + 0 * 0) <= 45.
Proof.
  refine (proj2 (proj2 (@velocity_indicator_bounded
            [ mkInit 0 SUPPLIER (-1950) 350 0 "n" ] [] [Tick]
            (viewOf (integrateSpec pulled)) (8832 / 1000) 0 _ _))).
  - change (In (viewOf (integrateSpec pulled))
               (map viewOf (nodesOf (tick runaway)))).
    rewrite runaway_tick; left; reflexivity.
  - unfold velocityIndicator, dec; cbn [viewOf v_vx v_vy].
    destruct pulled_velocity as [-> ->].
    cbn [abs ltb mul div fromZ Exact.number].
    rewrite Rltb_true by (rewrite Rabs_right; lra).
    cbn [orb]; f_equal; f_equal; lra.
Defined.

End IndicatorWitness.

(** ** A node at rest *)

Section Rest.
Local Open Scope R_scope.

(** A lone node at rest, at least 50 inside every edge of the viewport,
    with no shockwave active. *)
Definition restingAlone (e : Engine R) (n : Node R) : Prop :=
  nodes (physics e) = [n] /\ edges (physics e) = [] /\
  shockwaves (physics e) = [] /\
  vx n = 0 /\ vy n = 0 /\
  50 <= x n <= width e - 50 /\ 50 <= y n <= height e - 50.

Lemma integrateSpec_at_rest (n : Node R) :
  vx n = 0 -> vy n = 0 -> ax n = 0 -> ay n = 0 ->
  kinematics (integrateSpec n) = kinematics n.
Proof.
  intros Hvx Hvy Hax Hay.
  unfold integrateSpec.
  set (m := dampVelocity (accelerate n)).
  assert (Hx : vx m = 0)
    by (unfold m, dampVelocity, accelerate; simpl; rewrite Hvx, Hax; lra).
  assert (Hy : vy m = 0)
    by (unfold m, dampVelocity, accelerate; simpl; rewrite Hvy, Hay; lra).
  assert (Hc : clampVelocity m = m).
  { destruct (clampVelocity_exact m) as [_ Hunder]; apply Hunder.
    apply capped_at_rest; assumption. }
  rewrite Hc; unfold advance, kinematics, TIME_STEP, dec;
    cbn [set_pos x y vx vy add mul div fromZ Exact.number].
  rewrite Hx, Hy.
  change (x m) with (x n); change (y m) with (y n).
  rewrite Hvx, Hvy; repeat f_equal; lra.
Qed.

Lemma step_restingAlone (e : Engine R) (n : Node R) :
  restingAlone e n ->
  exists n', restingAlone (fst (simulationStep e)) n' /\
             kinematics n' = kinematics n.
Proof.
  intros (Hn & He & Hs & Hvx & Hvy & Hx & Hy).
  destruct (step_rest e) as (He' & _ & Hw & Hh).
  set (pre := addAcc (zero, zero)
                (addAcc (calculateBoundaryForces (width e) (height e)
                           (addAcc (zero, zero) (resetAcc n)))
                   (addAcc (zero, zero) (resetAcc n)))).
  assert (Hstep : nodes (physics (fst (simulationStep e))) = [integrateSpec pre]
                  /\ shockwaves (physics (fst (simulationStep e))) = []).
  { unfold simulationStep; rewrite Hn, He, Hs.
    cbn [map List.length coulombPhase calculateCoulombRepulsion nth_error
         coulombLoop Nat.eqb update hookePhase].
    unfold integratePhase, shockwavePhase, boundaryPhase, applyShockwaves.
    cbn [map fold_left fst snd physics set_stats set_physics set_shockwaves
         set_nodes nodes shockwaves updateShockwaves filter].
    rewrite integrate_is_spec; split; reflexivity. }
  destruct Hstep as [Hn' Hs'].
  assert (Hk : kinematics (integrateSpec pre) = kinematics n).
  { assert (Hb : calculateBoundaryForces (width e) (height e)
                   (addAcc (zero, zero) (resetAcc n)) = (0, 0)).
    { rewrite calculateBoundaryForces_axes; unfold axisForce.
      change (x (addAcc (zero, zero) (resetAcc n))) with (x n).
      change (y (addAcc (zero, zero) (resetAcc n))) with (y n).
      rewrite !Rltb_false by lra; f_equal; lra. }
    rewrite integrateSpec_at_rest; [reflexivity | exact Hvx | exact Hvy | |];
      unfold pre; rewrite Hb; unfold addAcc, resetAcc, zero;
      cbn [set_acc ax ay fst snd add fromZ Exact.number]; lra. }
  exists (integrateSpec pre); split; [|exact Hk].
  set (n' := integrateSpec pre) in *; clearbody n'.
  assert (Kx : x n' = x n) by (apply (f_equal (fun t => fst (fst (fst t)))) in Hk; exact Hk).
  assert (Ky : y n' = y n) by (apply (f_equal (fun t => snd (fst (fst t)))) in Hk; exact Hk).
  assert (Kvx : vx n' = vx n) by (apply (f_equal (fun t => snd (fst t))) in Hk; exact Hk).
  assert (Kvy : vy n' = vy n) by (apply (f_equal (fun t => snd t)) in Hk; exact Hk).
  unfold restingAlone; rewrite Hn', He', He, Hs', Hw, Hh, Kx, Ky, Kvx, Kvy.
  repeat split; auto; lra.
Qed.

End Rest.

(** X26. Over the reals, a lone node at rest, at least 50 inside every
    edge of the viewport and with no shockwave active, is an equilibrium:
    however many steps run, it keeps its position and stays at rest. *)
Theorem lone_node_rests :
  forall (e : Engine R) (n : Node R) (k : nat),
    restingAlone e n ->
    exists n',
      nodes (physics (Nat.iter k (fun e => fst (simulationStep e)) e)) = [n'] /\
      kinematics n' = kinematics n.
Proof.
  intros e n k H.
  assert (G : exists n',
             restingAlone (Nat.iter k (fun e => fst (simulationStep e)) e) n' /\
             kinematics n' = kinematics n).
  { induction k as [|k IH]; [exists n; auto|].
    destruct IH as (n1 & H1 & K1).
    destruct (step_restingAlone H1) as (n2 & H2 & K2).
    exists n2; split; [exact H2 | congruence]. }
  destruct G as (n' & (Hn & _) & K); eauto.
Qed.

Lemma lone_node_rests_witness :
  exists n',
    nodes (physics (Nat.iter 100 (fun e => fst (simulationStep e))
                      (usePhysicsEngine [ mkInit 0 SUPPLIER 500 300 2 "n" ] []
                         1000%R 700%R))) = [n'] /\
    kinematics n'
    = kinematics (initNode (@mkInit R _ 0 SUPPLIER 500 300 2 "n")).
Proof.
  refine (@lone_node_rests
            (usePhysicsEngine [ mkInit 0 SUPPLIER 500 300 2 "n" ] [] 1000%R 700%R)
            (initNode (mkInit 0 SUPPLIER 500 300 2 "n")) 100 _).
  unfold restingAlone, zero;
    cbn [usePhysicsEngine initPhysics physics nodes edges shockwaves map
         width height initNode mkInit x y vx vy in_x in_y fromZ Exact.number].
  repeat split; try reflexivity; lra.
Defined.
